(** * IBKR_stream_save.py: a shallow embedding and its verified properties

    The script connects to the brokerage gateway, opens one CSV file per
    ticker, subscribes to 5-second bars, appends one row per delivered bar
    and closes everything on SIGINT/SIGTERM.

    The program state (the globals [ib] and [bars_map], the heap of Python
    file objects, the file system, standard output) is threaded through a
    small state-and-exception monad.  Everything outside the script (the
    gateway, the operating system) answers through one oracle, [fault],
    which decides for each external call, at each moment, whether it
    raises. *)

From stdpp Require Import gmap strings list fin_maps pretty.
From Stdlib Require Import ZArith Lia Ascii.

Local Open Scope string_scope.
Local Open Scope list_scope.
Local Open Scope Z_scope.

(** ** Data *)

(** The values handed to [csv.writer.writerow].  A [datetime] is kept as its
    POSIX timestamp and a [float] as its binary64 bit pattern: the script
    only copies them. *)
Inductive PyVal :=
| VStr (s : string)
| VDatetime (t : Z)
| VFloat (bits : Z).

Global Instance PyVal_eq_dec : EqDecision PyVal.
Proof. solve_decision. Defined.

Definition Row := list PyVal.

Global Instance Row_eq_dec : EqDecision Row := @list_eq_dec PyVal _.

(** [ib_insync.RealTimeBar], the attributes [on_bar] reads. *)
Record RealTimeBar := {
  time : Z;
  open_ : Z;
  high : Z;
  low : Z;
  close : Z;
  volume : Z
}.

(** [ib_insync.RealTimeBarList]: a list of bars that hashes and compares by
    object identity. *)
Record RealTimeBarList := {
  ident : nat;
  items : list RealTimeBar
}.

(** [ib_insync.Stock(symbol, exchange, currency)]. *)
Record Contract := {
  c_symbol : string;
  c_exchange : string;
  c_currency : string
}.

(** [csv.writer(f)]: the writer only remembers the file object it wraps. *)
Record CsvWriter := { fileobj : nat }.

(** The value stored in [bars_map] (a dict with keys 'symbol', 'writer',
    'file'). *)
Record Ctx := {
  symbol : string;
  writer : CsvWriter;
  file : nat
}.

(** A Python text file opened in append mode: rows written but not yet
    flushed wait in [buf]. *)
Record FileObj := {
  fpath : string;
  closed : bool;
  buf : list Row
}.

(** The [IB] client object. *)
Record IBClient := { connected : bool }.

Inductive Signal := SIGINT | SIGTERM.

Definition signum (s : Signal) : Z :=
  match s with SIGINT => 2 | SIGTERM => 15 end.

(** Python exceptions.  [Exception msg] stands for every subclass of
    [Exception], with [msg] its [str()]; the other two derive from
    [BaseException] only, so [except Exception] lets them through. *)
Inductive exn :=
| Exception (msg : string)
| KeyboardInterrupt
| SystemExit (code : Z).

(** Calls that leave the script. *)
Inductive Call :=
| CConnect (host : string) (port clientId : Z)
| CMakedirs (dir : string)
| CStock (sym exchange currency : string)
| COpen (path : string)
| CWriterow (f : nat) (r : Row)
| CFlush (f : nat)
| CClose (f : nat)
| CReqRealTimeBars (c : Contract) (barSize : Z) (whatToShow : string) (useRTH : bool)
| CDisconnect.

(** The configuration read from the environment variables, and the oracle:
    [fault t c = Some msg] when call [c], issued as the [t]-th external call
    of the process, raises an [Exception] with text [msg]. *)
Record Env := {
  HOST : string;
  PORT : Z;
  CLIENT_ID : Z;
  OUTPUT_DIR : string;
  now : string;                         (* str(datetime.now()) at start-up *)
  abspath : string -> string;           (* os.path.abspath *)
  fault : nat -> Call -> option string
}.

Record World := {
  env : Env;
  ib : option IBClient;                 (* global ib *)
  bars_map : list (nat * Ctx);          (* global bars_map, in insertion order *)
  updateEvent : list nat;               (* subscriptions on_bar listens to *)
  sig_handlers : list Signal;           (* signals routed to shutdown *)
  files : gmap nat FileObj;             (* heap of file objects *)
  next_id : nat;                        (* next fresh object identity *)
  disk : gmap string (list Row);        (* file system: path to rows *)
  dirs : gset string;                   (* directories made by the script *)
  stdout : list string;                 (* lines printed *)
  trace : list (Call * option string)   (* external calls and their outcome *)
}.

Definition set_ib (v : option IBClient) (w : World) : World :=
  {| env := env w; ib := v; bars_map := bars_map w;
     updateEvent := updateEvent w; sig_handlers := sig_handlers w;
     files := files w; next_id := next_id w; disk := disk w; dirs := dirs w;
     stdout := stdout w; trace := trace w |}.

Definition set_bars_map (v : list (nat * Ctx)) (w : World) : World :=
  {| env := env w; ib := ib w; bars_map := v;
     updateEvent := updateEvent w; sig_handlers := sig_handlers w;
     files := files w; next_id := next_id w; disk := disk w; dirs := dirs w;
     stdout := stdout w; trace := trace w |}.

Definition set_updateEvent (v : list nat) (w : World) : World :=
  {| env := env w; ib := ib w; bars_map := bars_map w;
     updateEvent := v; sig_handlers := sig_handlers w;
     files := files w; next_id := next_id w; disk := disk w; dirs := dirs w;
     stdout := stdout w; trace := trace w |}.

Definition set_sig_handlers (v : list Signal) (w : World) : World :=
  {| env := env w; ib := ib w; bars_map := bars_map w;
     updateEvent := updateEvent w; sig_handlers := v;
     files := files w; next_id := next_id w; disk := disk w; dirs := dirs w;
     stdout := stdout w; trace := trace w |}.

Definition set_files (v : gmap nat FileObj) (w : World) : World :=
  {| env := env w; ib := ib w; bars_map := bars_map w;
     updateEvent := updateEvent w; sig_handlers := sig_handlers w;
     files := v; next_id := next_id w; disk := disk w; dirs := dirs w;
     stdout := stdout w; trace := trace w |}.

Definition set_next_id (v : nat) (w : World) : World :=
  {| env := env w; ib := ib w; bars_map := bars_map w;
     updateEvent := updateEvent w; sig_handlers := sig_handlers w;
     files := files w; next_id := v; disk := disk w; dirs := dirs w;
     stdout := stdout w; trace := trace w |}.

Definition set_disk (v : gmap string (list Row)) (w : World) : World :=
  {| env := env w; ib := ib w; bars_map := bars_map w;
     updateEvent := updateEvent w; sig_handlers := sig_handlers w;
     files := files w; next_id := next_id w; disk := v; dirs := dirs w;
     stdout := stdout w; trace := trace w |}.

Definition set_dirs (v : gset string) (w : World) : World :=
  {| env := env w; ib := ib w; bars_map := bars_map w;
     updateEvent := updateEvent w; sig_handlers := sig_handlers w;
     files := files w; next_id := next_id w; disk := disk w; dirs := v;
     stdout := stdout w; trace := trace w |}.

Definition set_stdout (v : list string) (w : World) : World :=
  {| env := env w; ib := ib w; bars_map := bars_map w;
     updateEvent := updateEvent w; sig_handlers := sig_handlers w;
     files := files w; next_id := next_id w; disk := disk w; dirs := dirs w;
     stdout := v; trace := trace w |}.

Definition set_trace (v : list (Call * option string)) (w : World) : World :=
  {| env := env w; ib := ib w; bars_map := bars_map w;
     updateEvent := updateEvent w; sig_handlers := sig_handlers w;
     files := files w; next_id := next_id w; disk := disk w; dirs := dirs w;
     stdout := stdout w; trace := v |}.

(** ** The monad: state, plus Python's exceptions *)

Inductive res (A : Type) :=
| Val (a : A)
| Exn (e : exn).
Arguments Val {A} a.
Arguments Exn {A} e.

Definition M (A : Type) : Type := World -> res A * World.

Definition ret {A} (a : A) : M A := fun w => (Val a, w).

Definition bind {A B} (m : M A) (k : A -> M B) : M B :=
  fun w =>
    match m w with
    | (Val a, w') => k a w'
    | (Exn e, w') => (Exn e, w')
    end.

Definition raise {A} (e : exn) : M A := fun w => (Exn e, w).

Definition gets {A} (f : World -> A) : M A := fun w => (Val (f w), w).

Definition modify (f : World -> World) : M unit := fun w => (Val tt, f w).

Declare Scope py_scope.
Delimit Scope py_scope with py.
Notation "x <- m ;; k" := (bind m (fun x => k))
  (at level 100, m at next level, right associativity) : py_scope.
Notation "m ;;; k" := (bind m (fun _ => k))
  (at level 100, right associativity) : py_scope.
Local Open Scope py_scope.

(** [try: m except Exception as e: h e] *)
Definition try_except {A} (m : M A) (h : string -> M A) : M A :=
  fun w =>
    match m w with
    | (Exn (Exception msg), w') => h msg w'
    | r => r
    end.

(** [try: m except: pass] (the bare clause catches every exception) *)
Definition try_pass (m : M unit) : M unit :=
  fun w =>
    match m w with
    | (Exn _, w') => (Val tt, w')
    | r => r
    end.

(** [for x in l: body x] *)
Fixpoint for_each {A} (l : list A) (body : A -> M unit) : M unit :=
  match l with
  | [] => ret tt
  | x :: xs => body x ;;; for_each xs body
  end.

Definition print (line : string) : M unit :=
  modify (fun w => set_stdout (stdout w ++ [line]) w).

(** [sys.exit(code)] *)
Definition sys_exit {A} (code : Z) : M A := raise (SystemExit code).

(** An external call.  [pre] is an error the Python runtime raises by itself
    before the outside world is reached (an operation on a closed file);
    otherwise the oracle decides.  The call and its outcome are traced. *)
Definition call (c : Call) (pre : option string) : M unit :=
  fun w =>
    let r := match pre with
             | Some msg => Some msg
             | None => fault (env w) (length (trace w)) c
             end in
    let w' := set_trace (trace w ++ [(c, r)]) w in
    match r with
    | Some msg => (Exn (Exception msg), w')
    | None => (Val tt, w')
    end.

(** ** Library and runtime operations the script calls *)

Definition sep : Ascii.ascii := "/"%char.

Definition startswith_sep (s : string) : bool :=
  match s with
  | String c _ => Ascii.eqb c sep
  | EmptyString => false
  end.

Fixpoint endswith_sep (s : string) : bool :=
  match s with
  | EmptyString => false
  | String c EmptyString => Ascii.eqb c sep
  | String _ s' => endswith_sep s'
  end.

(** [os.path.join(a, b)] (posixpath) *)
Definition path_join (a b : string) : string :=
  if startswith_sep b then b
  else if String.eqb a "" || endswith_sep a then a +:+ b
  else a +:+ "/" +:+ b.

Definition file_content (w : World) (path : string) : list Row :=
  default [] (disk w !! path).

Definition closed_file_error : string := "I/O operation on closed file.".

(** What Python itself raises when file object [f] is written or flushed:
    [ValueError] on a closed file.  An identity that names no file object is
    treated the same way. *)
Definition file_pre (f : nat) (w : World) : option string :=
  match files w !! f with
  | Some o => if closed o then Some closed_file_error else None
  | None => Some closed_file_error
  end.

(** [open(path, 'a', newline='')]: creates the file when it is missing,
    never truncates, and returns a new file object. *)
Definition open_append (path : string) : M nat :=
  call (COpen path) None ;;;
  f <- gets next_id ;;
  modify (fun w =>
    set_next_id (S f)
      (set_files (<[f := {| fpath := path; closed := false; buf := [] |}]> (files w))
         (set_disk (match disk w !! path with
                    | Some _ => disk w
                    | None => <[path := []]> (disk w)
                    end) w))) ;;;
  ret f.

Definition csv_writer (f : nat) : CsvWriter := {| fileobj := f |}.

(** [f.tell()] of a file in append mode: the size of the file plus what is
    pending, counted in rows here; it is [0] exactly when the byte position
    is, a row being at least its line terminator. *)
Definition tell (f : nat) : M nat :=
  fun w =>
    match files w !! f with
    | Some o =>
        if closed o then (Exn (Exception closed_file_error), w)
        else (Val (length (file_content w (fpath o)) + length (buf o))%nat, w)
    | None => (Exn (Exception closed_file_error), w)
    end.

Definition push_row (r : Row) (o : FileObj) : FileObj :=
  {| fpath := fpath o; closed := closed o; buf := buf o ++ [r] |}.

(** [writer.writerow(r)]: the row goes to the buffer of the wrapped file. *)
Definition writerow (wr : CsvWriter) (r : Row) : M unit :=
  let f := fileobj wr in
  pre <- gets (file_pre f) ;;
  call (CWriterow f r) pre ;;;
  modify (fun w => set_files (alter (push_row r) f (files w)) w).

(** Moving the buffer of file object [f] to the end of its file. *)
Definition drain (f : nat) (close_it : bool) (w : World) : World :=
  match files w !! f with
  | Some o =>
      if closed o then w
      else
        set_files
          (<[f := {| fpath := fpath o; closed := close_it; buf := [] |}]> (files w))
          (set_disk (<[fpath o := file_content w (fpath o) ++ buf o]> (disk w)) w)
  | None => w
  end.

(** [f.flush()] *)
Definition flush (f : nat) : M unit :=
  pre <- gets (file_pre f) ;;
  call (CFlush f) pre ;;;
  modify (drain f false).

(** [f.close()]: flushes and closes; closing a closed file does nothing.
    A close that raises is taken to leave the file object as it was. *)
Definition file_close (f : nat) : M unit :=
  call (CClose f) None ;;;
  modify (drain f true).

(** [Stock(symbol, exchange, currency)] *)
Definition Stock (sym exchange currency : string) : M Contract :=
  call (CStock sym exchange currency) None ;;;
  ret {| c_symbol := sym; c_exchange := exchange; c_currency := currency |}.

Definition none_has_no (attr : string) : string :=
  "'NoneType' object has no attribute '" +:+ attr +:+ "'".

(** [ib.connect(host, port, clientId=...)] *)
Definition ib_connect (host : string) (port clientId : Z) : M unit :=
  i <- gets ib ;;
  match i with
  | None => raise (Exception (none_has_no "connect"))
  | Some _ =>
      call (CConnect host port clientId) None ;;;
      modify (set_ib (Some {| connected := true |}))
  end.

(** [ib.disconnect()] *)
Definition ib_disconnect : M unit :=
  i <- gets ib ;;
  match i with
  | None => raise (Exception (none_has_no "disconnect"))
  | Some _ =>
      call CDisconnect None ;;;
      modify (set_ib (Some {| connected := false |}))
  end.

(** [ib.reqRealTimeBars(contract, barSize, whatToShow, useRTH)]: the
    subscription handle is a new, empty [RealTimeBarList]. *)
Definition reqRealTimeBars (contract : Contract) (barSize : Z)
    (whatToShow : string) (useRTH : bool) : M RealTimeBarList :=
  i <- gets ib ;;
  match i with
  | None => raise (Exception (none_has_no "reqRealTimeBars"))
  | Some _ =>
      call (CReqRealTimeBars contract barSize whatToShow useRTH) None ;;;
      h <- gets next_id ;;
      modify (set_next_id (S h)) ;;;
      ret {| ident := h; items := [] |}
  end.

(** Dict operations on [bars_map]; the keys are object identities. *)
Fixpoint dict_get {V} (k : nat) (d : list (nat * V)) : option V :=
  match d with
  | [] => None
  | (k', v) :: d' => if decide (k' = k) then Some v else dict_get k d'
  end.

Fixpoint dict_set {V} (k : nat) (v : V) (d : list (nat * V)) : list (nat * V) :=
  match d with
  | [] => [(k, v)]
  | (k', v') :: d' =>
      if decide (k' = k) then (k, v) :: d' else (k', v') :: dict_set k v d'
  end.

Definition dict_keys {V} (d : list (nat * V)) : list nat := d.*1.
Definition dict_values {V} (d : list (nat * V)) : list V := d.*2.

(** [bars_map[bars]] *)
Definition bars_map_getitem (bars : RealTimeBarList) : M Ctx :=
  m <- gets bars_map ;;
  match dict_get (ident bars) m with
  | Some ctx => ret ctx
  | None => raise (Exception "KeyError")
  end.

(** [bars_map[bars] = ctx] *)
Definition bars_map_setitem (bars : RealTimeBarList) (ctx : Ctx) : M unit :=
  modify (fun w => set_bars_map (dict_set (ident bars) ctx (bars_map w)) w).

(** [bars[-1]] *)
Definition last_item (bars : RealTimeBarList) : M RealTimeBar :=
  match last (items bars) with
  | Some bar => ret bar
  | None => raise (Exception "list index out of range")
  end.

(** ** The script *)

Definition TICKERS : list string := [
  "SPY"; "QQQ"; "IWM";
  "AEM"; "AEP"; "AGI"; "AMAT"; "AMD"; "AMT"; "AMZN"; "ANET";
  "APH"; "APP"; "ATI"; "AVGO"; "AXP"; "CCJ"; "CDNS"; "CEG";
  "CELH"; "CL"; "CLS"; "CME"; "CNM"; "CNP"; "COST"; "CP";
  "CRBG"; "D"; "DOCS"; "DXCM"; "ETN"; "EXPE"; "FAST"; "FLEX";
  "FTNT"; "GEN"; "HLT"; "HON"; "HPE"; "HWM"; "IBKR"; "ICE";
  "KDP"; "KMI"; "KO"; "LIN"; "LNT"; "LRCX"; "MA"; "MDLZ";
  "MDT"; "META"; "MNST"; "MPC"; "MSFT"; "NDAQ"; "NEE"; "NFLX";
  "NI"; "NKE"; "NTNX"; "NUE"; "NVDA"; "NVT"; "NWSA"; "NXPI";
  "ORLY"; "OTIS"; "QSR"; "RCL"; "ROL"; "SCHW"; "SFM"; "SGI";
  "SMCI"; "TJX"; "TME"; "TPR"; "TSCO"; "UNP"; "USFD"; "V";
  "VLO"; "VST"; "WEC"; "WMB"; "WPM"; "WYNN"; "YUM";
  "TSLA"; "AAPL"
].

Definition nl : string := String (ascii_of_nat 10) "".

Fixpoint str_repeat (s : string) (n : nat) : string :=
  match n with
  | O => ""
  | S n' => s +:+ str_repeat s n'
  end.

Definition connect_to_ib : M bool :=
  try_except
    (modify (set_ib (Some {| connected := false |})) ;;;
     e <- gets env ;;
     ib_connect (HOST e) (PORT e) (CLIENT_ID e) ;;;
     print ("Connected to IB at " +:+ HOST e +:+ ":" +:+ pretty (PORT e)
            +:+ " with client ID " +:+ pretty (CLIENT_ID e)) ;;;
     ret true)
    (fun e =>
       print ("Failed to connect to IB: " +:+ e) ;;;
       ret false).

Definition setup_output_directory : M bool :=
  try_except
    (e <- gets env ;;
     call (CMakedirs (OUTPUT_DIR e)) None ;;;
     modify (fun w => set_dirs ({[ OUTPUT_DIR e ]} ∪ dirs w) w) ;;;
     print ("Output directory: " +:+ abspath e (OUTPUT_DIR e)) ;;;
     ret true)
    (fun e =>
       print ("Failed to create output directory: " +:+ e) ;;;
       ret false).

Definition header : Row :=
  [VStr "timestamp"; VStr "open"; VStr "high"; VStr "low"; VStr "close";
   VStr "volume"].

Definition csv_path_of (output_dir sym : string) : string :=
  path_join output_dir (sym +:+ ".csv").

(** The body of the loop of [setup_streaming], for one symbol. *)
Definition setup_symbol (sym : string) : M unit :=
  try_except
    (contract <- Stock sym "SMART" "USD" ;;
     e <- gets env ;;
     let csv_path := csv_path_of (OUTPUT_DIR e) sym in
     f <- open_append csv_path ;;
     let writer := csv_writer f in
     pos <- tell f ;;
     (if Nat.eqb pos 0 then writerow writer header else ret tt) ;;;
     bars <- reqRealTimeBars contract 5 "TRADES" false ;;
     bars_map_setitem bars {| symbol := sym; writer := writer; file := f |} ;;;
     print ("✓ Set up streaming for " +:+ sym))
    (fun e =>
       print ("✗ Failed to set up streaming for " +:+ sym +:+ ": " +:+ e)).

Definition setup_streaming_for (tickers : list string) : M unit :=
  print ("Setting up streaming for " +:+ pretty (length tickers)
         +:+ " tickers...") ;;;
  for_each tickers setup_symbol.

Definition setup_streaming : M unit := setup_streaming_for TICKERS.

Definition bar_row (bar : RealTimeBar) : Row :=
  [VDatetime (time bar); VFloat (open_ bar); VFloat (high bar);
   VFloat (low bar); VFloat (close bar); VFloat (volume bar)].

(** The [try] block of [on_bar]. *)
Definition on_bar_body (bars : RealTimeBarList) : M unit :=
  ctx <- bars_map_getitem bars ;;
  bar <- last_item bars ;;
  writerow (writer ctx) (bar_row bar) ;;;
  flush (file ctx).

Definition on_bar (bars : RealTimeBarList) (hasNewBar : bool) : M unit :=
  if negb hasNewBar then ret tt
  else
    try_except (on_bar_body bars)
      (fun e => print ("Error processing bar data: " +:+ e)).

Definition register_callbacks : M unit :=
  m <- gets bars_map ;;
  for_each (dict_keys m)
    (fun bars => modify (fun w => set_updateEvent (updateEvent w ++ [bars]) w)).

(** [shutdown(signal_num, frame)]; [frame] is not used. *)
Definition shutdown (signal_num : Signal) : M unit :=
  print (nl +:+ "Received signal " +:+ pretty (signum signal_num)
         +:+ ", shutting down...") ;;;
  m <- gets bars_map ;;
  for_each (dict_values m) (fun ctx => try_pass (file_close (file ctx))) ;;;
  i <- gets ib ;;
  (match i with
   | Some _ => try_pass ib_disconnect
   | None => ret tt
   end) ;;;
  print "Shutdown complete." ;;;
  sys_exit 0.

(** What the event loop of the client library delivers while [ib.run()]
    blocks. *)
Inductive Event :=
| EvBar (bars : RealTimeBarList) (hasNewBar : bool)
| EvSignal (s : Signal)
| EvException (msg : string)            (* the loop dies with an Exception *)
| EvKeyboardInterrupt.                  (* the loop is interrupted *)

(** [signal.signal(s, shutdown)] *)
Definition signal_signal (s : Signal) : M unit :=
  modify (fun w => set_sig_handlers (s :: sig_handlers w) w).

Definition Signal_eqb (a b : Signal) : bool :=
  match a, b with
  | SIGINT, SIGINT | SIGTERM, SIGTERM => true
  | _, _ => false
  end.

(** Delivery of a signal: the installed handler, else the default
    disposition ([KeyboardInterrupt] for SIGINT; for SIGTERM the process is
    ended by the system, shown as the exit status the system reports). *)
Definition deliver_signal (s : Signal) : M unit :=
  hs <- gets sig_handlers ;;
  if existsb (Signal_eqb s) hs then shutdown s
  else
    match s with
    | SIGINT => raise KeyboardInterrupt
    | SIGTERM => raise (SystemExit (128 + signum SIGTERM))
    end.

(** [bars.updateEvent.emit(bars, hasNewBar)]: every registered listener of
    that subscription is called. *)
Definition emit (bars : RealTimeBarList) (hasNewBar : bool) : M unit :=
  ls <- gets updateEvent ;;
  for_each (filter (fun h => h = ident bars) ls)
    (fun _ => on_bar bars hasNewBar).

(** [ib.run()], driven by the events that arrive until it returns. *)
Fixpoint run (events : list Event) : M unit :=
  match events with
  | [] => ret tt
  | EvBar bars hasNewBar :: rest => emit bars hasNewBar ;;; run rest
  | EvSignal s :: rest => deliver_signal s ;;; run rest
  | EvException msg :: _ => raise (Exception msg)
  | EvKeyboardInterrupt :: _ => raise KeyboardInterrupt
  end.

(** The [try] around [ib.run()] at the end of [main], with its two
    [except] clauses. *)
Definition run_loop (events : list Event) : M unit :=
  fun w =>
    match run events w with
    | (Exn KeyboardInterrupt, w') => shutdown SIGINT w'
    | (Exn (Exception msg), w') =>
        (print ("Unexpected error: " +:+ msg) ;;;
         shutdown SIGTERM) w'
    | r => r
    end.

Definition main (events : list Event) : M unit :=
  print (str_repeat "=" 60) ;;;
  print "Interactive Brokers Real-Time Data Streamer" ;;;
  print (str_repeat "=" 60) ;;;
  e <- gets env ;;
  print ("Start time: " +:+ now e) ;;;
  print "" ;;;
  signal_signal SIGINT ;;;
  signal_signal SIGTERM ;;;
  connected <- connect_to_ib ;;
  if negb connected then sys_exit 1
  else
    made <- setup_output_directory ;;
    if negb made then sys_exit 1
    else
      setup_streaming ;;;
      m <- gets bars_map ;;
      match m with
      | [] =>
          print "No successful streaming setups. Exiting." ;;;
          sys_exit 1
      | _ :: _ =>
          register_callbacks ;;;
          print (nl +:+ "Streaming 5-second bars for " +:+ pretty (length m)
                 +:+ " tickers") ;;;
          print "Press Ctrl+C to stop." ;;;
          print (str_repeat "-" 60) ;;;
          run_loop events
      end.

(** The status the process ends with: what [sys.exit] was given, [0] when
    [main] returns, [1] for an exception nobody caught. *)
Definition exit_status (r : res unit) : Z :=
  match r with
  | Val _ => 0
  | Exn (SystemExit code) => code
  | Exn _ => 1
  end.

(** The state of a process that has just started, on a given file system. *)
Definition start (e : Env) (d : gmap string (list Row)) : World :=
  {| env := e; ib := None; bars_map := []; updateEvent := [];
     sig_handlers := []; files := ∅; next_id := 0%nat; disk := d; dirs := ∅;
     stdout := []; trace := [] |}.

(** * Specification vocabulary *)

(** [keeps R m]: running [m] relates the world before to the world after,
    whether [m] returns or raises. *)
Definition keeps {A} (R : relation World) (m : M A) : Prop :=
  ∀ w, R w (m w).2.

(** [same f]: the component [f] of the world is untouched. *)
Definition same {X} (f : World → X) : relation World :=
  λ w w', f w' = f w.

(** [mild m]: [m] returns or raises an [Exception], nothing else. *)
Definition mild {A} (m : M A) : Prop :=
  ∀ w, match (m w).1 with
       | Val _ | Exn (Exception _) => True
       | Exn _ => False
       end.

(** [safe m]: [m] always returns. *)
Definition safe {A} (m : M A) : Prop :=
  ∀ w, ∃ a, (m w).1 = Val a.


(** The rows of the output resource behind file object [f]: what is in the
    file, followed by what the file object still buffers. *)
Definition resource (w : World) (f : nat) : list Row :=
  match files w !! f with
  | Some o => file_content w (fpath o) ++ buf o
  | None => []
  end.

Definition path_of (w : World) (f : nat) : option string :=
  fpath <$> files w !! f.

Definition is_open (w : World) (f : nat) : Prop :=
  ∃ o, files w !! f = Some o ∧ closed o = false.

(** The symbols that have a subscription. *)
Definition subscribed (w : World) : list string :=
  symbol <$> dict_values (bars_map w).

(** What one entry of the mapping must look like: the writer wraps the
    entry's own file object, which exists and sits on the CSV file of the
    entry's symbol. *)
Definition entry_ok (w : World) (ctx : Ctx) : Prop :=
  fileobj (writer ctx) = file ctx ∧
  path_of w (file ctx) = Some (csv_path_of (OUTPUT_DIR (env w)) (symbol ctx)).

(** The mapping is one-to-one: no two entries share a subscription handle,
    a symbol, or an output file. *)
Record wf_map (w : World) : Prop := {
  wf_keys : NoDup (dict_keys (bars_map w));
  wf_symbols : NoDup (subscribed w);
  wf_paths : NoDup ((λ ctx, path_of w (file ctx)) <$> dict_values (bars_map w));
  wf_entries : Forall (entry_ok w) (dict_values (bars_map w))
}.




(** The two lines [setup_streaming] prints about a symbol. *)
Definition ok_line (sym : string) : string :=
  "✓ Set up streaming for " +:+ sym.

Definition fail_line (sym msg : string) : string :=
  "✗ Failed to set up streaming for " +:+ sym +:+ ": " +:+ msg.

(** The world right after [open(path, 'a')] returned. *)
Definition opened (path : string) (w : World) : World :=
  set_next_id (S (next_id w))
    (set_files (<[next_id w := {| fpath := path; closed := false; buf := [] |}]>
                  (files w))
       (set_disk (match disk w !! path with
                  | Some _ => disk w
                  | None => <[path := []]> (disk w)
                  end) w)).

Definition stock_call (sym : string) : Call := CStock sym "SMART" "USD".

Definition req_call (sym : string) : Call :=
  CReqRealTimeBars
    {| c_symbol := sym; c_exchange := "SMART"; c_currency := "USD" |}
    5 "TRADES" false.

(** The calls made for the header: one [writerow], when the file is empty. *)
Definition header_calls (w : World) (path : string) (out : option string)
    : list (Call * option string) :=
  match file_content w path with
  | [] => [(CWriterow (next_id w) header, out)]
  | _ :: _ => []
  end.

Definition header_buf (w : World) (path : string) : list Row :=
  match file_content w path with
  | [] => [header]
  | _ :: _ => []
  end.

(** The ways one round of the loop of [setup_streaming] can go, with what
    each leaves behind: [w] is the world before, [w'] the world after. *)
Inductive setup_step (sym : string) (w w' : World) : option string → Prop :=
| step_no_file (msg : string) (new : list (Call * option string)) :
    (* Stock(...) or open(...) raised *)
    new = [(stock_call sym, Some msg)] ∨
    new = [(stock_call sym, None);
           (COpen (csv_path_of (OUTPUT_DIR (env w)) sym), Some msg)] →
    trace w' = trace w ++ new →
    files w' = files w → disk w' = disk w → next_id w' = next_id w →
    bars_map w' = bars_map w →
    stdout w' = stdout w ++ [fail_line sym msg] →
    setup_step sym w w' (Some msg)
| step_header_failed (msg : string) :
    (* the file was opened, writing the header raised *)
    let path := csv_path_of (OUTPUT_DIR (env w)) sym in
    file_content w path = [] →
    trace w' = trace w ++ [(stock_call sym, None); (COpen path, None);
                           (CWriterow (next_id w) header, Some msg)] →
    files w' = files (opened path w) → disk w' = disk (opened path w) →
    next_id w' = S (next_id w) →
    bars_map w' = bars_map w →
    stdout w' = stdout w ++ [fail_line sym msg] →
    setup_step sym w w' (Some msg)
| step_not_subscribed (msg : string) (rq : list (Call * option string)) :
    (* the file was opened, the subscription request raised *)
    let path := csv_path_of (OUTPUT_DIR (env w)) sym in
    rq = [(req_call sym, Some msg)] ∨ (rq = [] ∧ ib w = None) →
    trace w' = trace w ++ [(stock_call sym, None); (COpen path, None)]
                       ++ header_calls w path None ++ rq →
    files w' = <[next_id w := {| fpath := path; closed := false;
                                 buf := header_buf w path |}]> (files w) →
    disk w' = disk (opened path w) →
    next_id w' = S (next_id w) →
    bars_map w' = bars_map w →
    stdout w' = stdout w ++ [fail_line sym msg] →
    setup_step sym w w' (Some msg)
| step_subscribed :
    let path := csv_path_of (OUTPUT_DIR (env w)) sym in
    trace w' = trace w ++ [(stock_call sym, None); (COpen path, None)]
                       ++ header_calls w path None
                       ++ [(req_call sym, None)] →
    files w' = <[next_id w := {| fpath := path; closed := false;
                                 buf := header_buf w path |}]> (files w) →
    disk w' = disk (opened path w) →
    next_id w' = S (S (next_id w)) →
    bars_map w' =
      dict_set (S (next_id w))
        {| symbol := sym; writer := csv_writer (next_id w);
           file := next_id w |} (bars_map w) →
    stdout w' = stdout w ++ [ok_line sym] →
    setup_step sym w w' None.

(** A ticker that does not begin with the path separator (one that does
    would make [os.path.join] drop the output directory). *)
Definition plain (sym : string) : Prop := startswith_sep sym = false.

(** What holds while [setup_streaming] runs, [seen] being the symbols done
    so far: identities are handed out in order, each file object sits on the
    file of a symbol already seen, one file object per file, and the mapping
    is one-to-one with every entry's file open. *)
Record setup_inv (seen : list string) (w : World) : Prop := {
  si_heap : ∀ f o, files w !! f = Some o → (f < next_id w)%nat;
  si_keys : ∀ h, h ∈ dict_keys (bars_map w) → (h < next_id w)%nat;
  si_prov : ∀ f o, files w !! f = Some o →
            ∃ sym, sym ∈ seen ∧ fpath o = csv_path_of (OUTPUT_DIR (env w)) sym;
  si_one : ∀ f1 f2 o1 o2, files w !! f1 = Some o1 → files w !! f2 = Some o2 →
           fpath o1 = fpath o2 → f1 = f2;
  si_wf : wf_map w;
  si_sub : ∀ sym, sym ∈ subscribed w → sym ∈ seen;
  si_open : Forall (λ ctx, is_open w (file ctx)) (dict_values (bars_map w))
}.

(** The rounds of the loop, chained: one [setup_step] per symbol, in list
    order; [outs] collects what was reported for each. *)
Inductive setup_steps : list string → World → World → list (option string) → Prop :=
| steps_nil w : setup_steps [] w w []
| steps_cons sym l w w1 w' out outs :
    setup_step sym w w1 out →
    env w1 = env w → ib w1 = ib w →
    setup_steps l w1 w' outs →
    setup_steps (sym :: l) w w' (out :: outs).

(** The line printed for a symbol, given how its round went. *)
Definition report (sym : string) (out : option string) : string :=
  match out with
  | None => ok_line sym
  | Some msg => fail_line sym msg
  end.

(** The symbols of [l] whose round ended with a subscription. *)
Definition winners (l : list string) (outs : list (option string))
    : list string :=
  omap (λ so : string * option string,
          match so.2 with None => Some so.1 | Some _ => None end)
       (zip l outs).

(** The calls of one round: the [Stock(...)] call of the symbol first, and
    no other [Stock(...)] call after it. *)
Definition round_of (sym : string) (seg : list (Call * option string)) : Prop :=
  ∃ o rest, seg = (stock_call sym, o) :: rest ∧
            ∀ s o', (stock_call s, o') ∉ rest.

(** ** Concrete inputs *)

(** An environment in which nothing fails, with the default settings. *)
Definition env_of (flt : nat → Call → option string) : Env :=
  {| HOST := "127.0.0.1"; PORT := 7496; CLIENT_ID := 1;
     OUTPUT_DIR := "ibkr_candles"; now := "2024-01-02 09:30:00";
     abspath := λ p, "/home/user/" +:+ p; fault := flt |}.

Definition no_fault : nat → Call → option string := λ _ _, None.


(** The disk is full: every [writerow] raises. *)
Definition disk_full : nat → Call → option string :=
  λ _ c,
    match c with
    | CWriterow _ _ => Some "No space left on device"
    | _ => None
    end.

(** The disk fills up after the two-symbol setup, which takes the first
    eight external calls: from then on every [writerow] raises. *)
Definition disk_full_later : nat → Call → option string :=
  λ t c,
    match c with
    | CWriterow _ _ =>
        if (8 <=? t)%nat then Some "No space left on device" else None
    | _ => None
    end.

(** The gateway is down. *)
Definition gateway_down : nat → Call → option string :=
  λ _ c,
    match c with
    | CConnect _ _ _ => Some "Connection refused"
    | _ => None
    end.


(** A process that has connected, before [setup_streaming]. *)
Definition connected_world (flt : nat → Call → option string) : World :=
  set_ib (Some {| connected := true |}) (start (env_of flt) ∅).


(** The state after setting up the two symbols of the scenario AAPL, MSFT:
    subscription 1 writes to file object 0, subscription 3 to file
    object 2. *)
Definition two_symbols (flt : nat → Call → option string) : World :=
  (setup_streaming_for ["AAPL"; "MSFT"] (connected_world flt)).2.

Definition bar_a : RealTimeBar :=
  {| time := 1704205800; open_ := 1; high := 4; low := 0; close := 2;
     volume := 100 |}.


(** Deliveries: subscription [h] with the bars [bs] it holds. *)
Definition delivery (h : nat) (bs : list RealTimeBar) : RealTimeBarList :=
  {| ident := h; items := bs |}.

(** A CSV file of the script in good shape: empty, or the header followed
    by bar rows only. *)
Definition header_ok (rows : list Row) : Prop :=
  rows = [] ∨ ∃ bars, rows = header :: (bar_row <$> bars).


(** The file at path [p] stays in good shape: what is on disk is, what is
    on disk followed by what an open file object on [p] buffers is, and an
    open file object of the mapping never sits on an empty file with an
    empty buffer (so a bar row is never the first row). *)
Record header_inv (p : string) (w : World) : Prop := {
  h_disk : header_ok (file_content w p);
  h_buf : ∀ f o, files w !! f = Some o → fpath o = p → closed o = false →
          header_ok (file_content w p ++ buf o);
  h_map : ∀ ctx o, ctx ∈ dict_values (bars_map w) →
          files w !! file ctx = Some o → fpath o = p → closed o = false →
          file_content w p ++ buf o ≠ []
}.

(** No two file objects on one file, and every writer of the mapping wraps
    the file object of its own entry. *)
Record heap_inv (w : World) : Prop := {
  hp_one : ∀ f1 f2 o1 o2, files w !! f1 = Some o1 → files w !! f2 = Some o2 →
           fpath o1 = fpath o2 → f1 = f2;
  hp_writer : Forall (λ ctx, fileobj (writer ctx) = file ctx)
                (dict_values (bars_map w))
}.

Definition run_inv (p : string) (w : World) : Prop :=
  header_inv p w ∧ heap_inv w.

(** [inv_rel I]: what a computation that preserves [I] does to the world. *)
Definition inv_rel (I : World → Prop) : relation World :=
  λ w w', I w → I w'.

(** Files only grow. *)
Definition disk_grows : relation World :=
  λ w w', ∀ p, file_content w p `prefix_of` file_content w' p.




(** The state [main] is in once its banner is printed and its two signal
    handlers are installed. *)
Definition prelude (w : World) : World :=
  set_sig_handlers (SIGTERM :: SIGINT :: sig_handlers w)
    (set_stdout
       (stdout w ++ [str_repeat "=" 60;
                     "Interactive Brokers Real-Time Data Streamer";
                     str_repeat "=" 60;
                     "Start time: " +:+ now (env w); ""]) w).

Definition connect_call (e : Env) : Call :=
  CConnect (HOST e) (PORT e) (CLIENT_ID e).

(** The state after a connection attempt that raised [msg]. *)
Definition connect_failed (msg : string) (w : World) : World :=
  set_stdout (stdout w ++ ["Failed to connect to IB: " +:+ msg])
    (set_trace (trace w ++ [(connect_call (env w), Some msg)])
       (set_ib (Some {| connected := false |}) w)).

Definition connect_done (w : World) : World :=
  set_stdout
    (stdout w ++ ["Connected to IB at " +:+ HOST (env w) +:+ ":"
                  +:+ pretty (PORT (env w)) +:+ " with client ID "
                  +:+ pretty (CLIENT_ID (env w))])
    (set_ib (Some {| connected := true |})
       (set_trace (trace w ++ [(connect_call (env w), None)]) w)).

Definition makedirs_failed (msg : string) (w : World) : World :=
  set_stdout (stdout w ++ ["Failed to create output directory: " +:+ msg])
    (set_trace (trace w ++ [(CMakedirs (OUTPUT_DIR (env w)), Some msg)]) w).

Definition makedirs_done (w : World) : World :=
  set_stdout
    (stdout w ++ ["Output directory: "
                  +:+ abspath (env w) (OUTPUT_DIR (env w))])
    (set_dirs ({[ OUTPUT_DIR (env w) ]} ∪ dirs w)
       (set_trace (trace w ++ [(CMakedirs (OUTPUT_DIR (env w)), None)]) w)).

(** The state in which the event loop starts: the callbacks registered and
    the last three lines printed. *)
Definition streaming (w : World) : World :=
  set_stdout
    (stdout w ++ [nl +:+ "Streaming 5-second bars for "
                  +:+ pretty (length (bars_map w)) +:+ " tickers";
                  "Press Ctrl+C to stop."; str_repeat "-" 60])
    (set_updateEvent (updateEvent w ++ dict_keys (bars_map w)) w).

Definition is_bar (ev : Event) : Prop :=
  match ev with
  | EvBar _ _ => True
  | _ => False
  end.


(** A world in which the file of the AAPL entry has been closed. *)
Definition aapl_closed : World :=
  drain 0 true (two_symbols no_fault).



(** No [close] raises. *)
Definition close_reliable (w : World) : Prop :=
  ∀ t f, fault (env w) t (CClose f) = None.

(** Nothing was released between [w] and [w']: the session is the same, and
    every file object is as open or as closed as it was. *)
Definition nothing_released : relation World :=
  λ w w', ib w' = ib w ∧
          ∀ g, closed <$> files w' !! g = closed <$> files w !! g.


(** Nothing the script calls raises. *)
Definition cooperative (w : World) : Prop :=
  ∀ t c, fault (env w) t c = None.
(** * Properties *)

(** ** Reasoning about monadic code *)

Ltac unfold_m :=
  unfold bind, ret, raise, gets, modify, print, sys_exit, call, try_except,
    try_pass in *.

Global Instance same_preorder {X} (f : World → X) : PreOrder (same f).
Proof.
  split.
  - intros w. reflexivity.
  - intros w1 w2 w3 H12 H23. unfold same in *. congruence.
Qed.

Section keeps.
Context (R : relation World) `{!PreOrder R}.

Lemma keeps_ret {A} (a : A) : keeps R (ret a).
Proof. intros w. reflexivity. Qed.

Lemma keeps_raise {A} (e : exn) : keeps R (@raise A e).
Proof. intros w. reflexivity. Qed.

Lemma keeps_gets {A} (f : World → A) : keeps R (gets f).
Proof. intros w. reflexivity. Qed.

Lemma keeps_modify (f : World → World) :
  (∀ w, R w (f w)) → keeps R (modify f).
Proof. intros H w. apply H. Qed.

Lemma keeps_bind {A B} (m : M A) (k : A → M B) :
  keeps R m → (∀ a, keeps R (k a)) → keeps R (bind m k).
Proof.
  intros Hm Hk w. unfold bind. specialize (Hm w).
  destruct (m w) as [[a|e] w1]; cbn in *; [|done].
  etrans; [exact Hm|apply Hk].
Qed.

Lemma keeps_try_except {A} (m : M A) (h : string → M A) :
  keeps R m → (∀ e, keeps R (h e)) → keeps R (try_except m h).
Proof.
  intros Hm Hh w. unfold try_except. specialize (Hm w).
  destruct (m w) as [[a|[msg| |c]] w1]; cbn in *; try done.
  etrans; [exact Hm|apply Hh].
Qed.

Lemma keeps_try_pass (m : M unit) : keeps R m → keeps R (try_pass m).
Proof.
  intros Hm w. unfold try_pass. specialize (Hm w).
  by destruct (m w) as [[a|e] w1].
Qed.

Lemma keeps_for_each {A} (l : list A) (body : A → M unit) :
  (∀ x, keeps R (body x)) → keeps R (for_each l body).
Proof.
  intros Hb. induction l as [|x l IH]; cbn.
  - apply keeps_ret.
  - apply keeps_bind; [apply Hb|intros _; exact IH].
Qed.

Lemma keeps_if {A} (b : bool) (m1 m2 : M A) :
  keeps R m1 → keeps R m2 → keeps R (if b then m1 else m2).
Proof. by destruct b. Qed.

Lemma keeps_print (line : string) :
  (∀ v w, R w (set_stdout v w)) → keeps R (print line).
Proof. intros H w. apply H. Qed.

Lemma keeps_call (c : Call) (pre : option string) :
  (∀ v w, R w (set_trace v w)) → keeps R (call c pre).
Proof.
  intros H w. unfold call.
  destruct pre; [|destruct (fault _ _ _)]; cbn; apply H.
Qed.
End keeps.

(** A tactic for [keeps] goals over the structure of the code; what is left
    are the state updates themselves. *)
Ltac keeps_step :=
  lazymatch goal with
  | |- keeps _ (ret _) => apply keeps_ret
  | |- keeps _ (raise _) => apply keeps_raise
  | |- keeps _ (sys_exit _) => apply keeps_raise
  | |- keeps _ (gets _) => apply keeps_gets
  | |- keeps _ (bind _ _) => apply keeps_bind
  | |- keeps _ (try_except _ _) => apply keeps_try_except
  | |- keeps _ (try_pass _) => apply keeps_try_pass
  | |- keeps _ (for_each _ _) => apply keeps_for_each
  | |- keeps _ (print _) => apply keeps_print
  | |- keeps _ (call _ _) => apply keeps_call
  | |- keeps _ (modify _) => apply keeps_modify
  | |- keeps _ (match ?x with _ => _ end) => destruct x
  end.

Ltac keeps_auto :=
  repeat first
    [ match goal with |- ∀ _, _ => intro end
    | keeps_step; try apply _ ].

Lemma safe_mild {A} (m : M A) : safe m → mild m.
Proof. intros H w. destruct (H w) as [a ->]. done. Qed.

Lemma mild_ret {A} (a : A) : mild (ret a).
Proof. by intros w. Qed.

Lemma mild_gets {A} (f : World → A) : mild (gets f).
Proof. by intros w. Qed.

Lemma mild_modify f : mild (modify f).
Proof. by intros w. Qed.

Lemma mild_raise {A} msg : mild (@raise A (Exception msg)).
Proof. by intros w. Qed.

Lemma mild_call c pre : mild (call c pre).
Proof.
  intros w. unfold call. destruct pre; [done|]. by destruct (fault _ _ _).
Qed.

Lemma mild_bind {A B} (m : M A) (k : A → M B) :
  mild m → (∀ a, mild (k a)) → mild (bind m k).
Proof.
  intros Hm Hk w. unfold bind. specialize (Hm w).
  destruct (m w) as [[a|e] w1]; cbn in *; [apply Hk|done].
Qed.

Lemma safe_ret {A} (a : A) : safe (ret a).
Proof. intros w. by exists a. Qed.

Lemma safe_print line : safe (print line).
Proof. intros w. by exists tt. Qed.

Lemma safe_bind {A B} (m : M A) (k : A → M B) :
  safe m → (∀ a, safe (k a)) → safe (bind m k).
Proof.
  intros Hm Hk w. unfold bind. destruct (Hm w) as [a Ha].
  destruct (m w) as [r w1]; cbn in *; subst. apply Hk.
Qed.

Lemma safe_try_except {A} (m : M A) (h : string → M A) :
  mild m → (∀ e, safe (h e)) → safe (try_except m h).
Proof.
  intros Hm Hh w. unfold try_except. specialize (Hm w).
  destruct (m w) as [[a|[msg| |c]] w1]; cbn in *; try done.
  - by exists a.
  - apply Hh.
Qed.

Lemma safe_try_pass (m : M unit) : safe (try_pass m).
Proof.
  intros w. unfold try_pass. destruct (m w) as [[[]|e] w1]; by exists tt.
Qed.

Lemma safe_for_each {A} (l : list A) (body : A → M unit) :
  (∀ x, safe (body x)) → safe (for_each l body).
Proof.
  intros Hb. induction l as [|x l IH]; cbn.
  - apply safe_ret.
  - apply safe_bind; [apply Hb|intros _; exact IH].
Qed.

(** Projections of updated worlds, without unfolding the finite maps. *)
Ltac wsimpl :=
  cbn [env ib bars_map updateEvent sig_handlers files next_id disk dirs
       stdout trace set_ib set_bars_map set_updateEvent set_sig_handlers
       set_files set_next_id set_disk set_dirs set_stdout set_trace
       fst snd] in *.

(** ** The primitives, as equations *)

Lemma call_eq c w :
  call c None w =
  match fault (env w) (length (trace w)) c with
  | Some msg =>
      (Exn (Exception msg), set_trace (trace w ++ [(c, Some msg)]) w)
  | None => (Val tt, set_trace (trace w ++ [(c, None)]) w)
  end.
Proof. unfold call. by destruct (fault _ _ _). Qed.

Lemma file_close_eq f w :
  file_close f w =
  match fault (env w) (length (trace w)) (CClose f) with
  | Some msg =>
      (Exn (Exception msg), set_trace (trace w ++ [(CClose f, Some msg)]) w)
  | None => (Val tt, drain f true (set_trace (trace w ++ [(CClose f, None)]) w))
  end.
Proof.
  unfold file_close, bind, modify. rewrite call_eq.
  by destruct (fault _ _ _).
Qed.

Lemma drain_other_fields f b w :
  env (drain f b w) = env w ∧ ib (drain f b w) = ib w ∧
  bars_map (drain f b w) = bars_map w ∧
  updateEvent (drain f b w) = updateEvent w ∧
  sig_handlers (drain f b w) = sig_handlers w ∧
  next_id (drain f b w) = next_id w ∧ dirs (drain f b w) = dirs w ∧
  stdout (drain f b w) = stdout w ∧ trace (drain f b w) = trace w.
Proof. unfold drain. repeat case_match; done. Qed.

Lemma drain_files f b w g :
  files (drain f b w) !! g =
  if decide (g = f) then
    match files w !! f with
    | Some o =>
        Some (if closed o then o
              else {| fpath := fpath o; closed := b; buf := [] |})
    | None => None
    end
  else files w !! g.
Proof.
  unfold drain. case_decide as Hg; [subst g|].
  - destruct (files w !! f) as [o|] eqn:Hf; [|done].
    destruct (closed o); wsimpl; [done|]. by rewrite lookup_insert_eq.
  - destruct (files w !! f) as [o|] eqn:Hf; [|done].
    destruct (closed o); wsimpl; [done|]. by rewrite lookup_insert_ne.
Qed.

(** A closed file object stays closed, whatever is drained. *)
Lemma drain_closed_mono f b w g o :
  files w !! g = Some o → closed o = true →
  files (drain f b w) !! g = Some o.
Proof.
  intros Hg Hc. rewrite drain_files. case_decide; [subst|done].
  by rewrite Hg, Hc.
Qed.

Lemma drain_true_closed f w o :
  files (drain f true w) !! f = Some o → closed o = true.
Proof.
  rewrite drain_files, decide_True by done.
  destruct (files w !! f) as [o'|]; [|done].
  destruct (closed o') eqn:Hc; intros [= <-]; done.
Qed.

(** ** The handlers leave the mapping alone *)

Ltac keeps_field :=
  keeps_auto;
  try solve
    [ unfold same; intros; wsimpl; try reflexivity;
      unfold drain; repeat case_match; reflexivity ].

Lemma on_bar_keeps_bars_map bars flag : keeps (same bars_map) (on_bar bars flag).
Proof.
  unfold on_bar, on_bar_body, bars_map_getitem, last_item, writerow, flush.
  keeps_field.
Qed.

Lemma shutdown_keeps_bars_map s : keeps (same bars_map) (shutdown s).
Proof.
  unfold shutdown, file_close, ib_disconnect. keeps_field.
Qed.

Lemma emit_keeps_bars_map bars flag : keeps (same bars_map) (emit bars flag).
Proof.
  unfold emit. keeps_auto. apply on_bar_keeps_bars_map.
Qed.

Lemma run_keeps_bars_map events : keeps (same bars_map) (run events).
Proof.
  induction events as [|[bars flag|s|msg|] rest IH]; cbn [run].
  - keeps_auto.
  - keeps_auto; [apply emit_keeps_bars_map|apply IH].
  - unfold deliver_signal. keeps_auto; try apply shutdown_keeps_bars_map.
    apply IH.
  - keeps_auto.
  - keeps_auto.
Qed.

Lemma register_callbacks_keeps_bars_map :
  keeps (same bars_map) register_callbacks.
Proof. unfold register_callbacks. keeps_field. Qed.

Lemma connect_to_ib_keeps_bars_map : keeps (same bars_map) connect_to_ib.
Proof. unfold connect_to_ib, ib_connect. keeps_field. Qed.

Lemma setup_output_directory_keeps_bars_map :
  keeps (same bars_map) setup_output_directory.
Proof. unfold setup_output_directory. keeps_field. Qed.

(** C2: with [hasNewBar] false, [on_bar] returns at once and the whole
    state (every output file and file object, the mapping, the output, the
    trace of external calls) is exactly what it was. *)
Theorem on_bar_no_new_bar_is_noop (bars : RealTimeBarList) (w : World) :
  on_bar bars false w = (Val tt, w).
Proof. reflexivity. Qed.

(** C10: neither [on_bar] (with either flag value) nor [shutdown] adds,
    removes or replaces an entry of [bars_map]; the same holds for the event
    loop as a whole, for connecting, for making the output directory and for
    registering the callbacks, which leaves [setup_streaming] as the only
    writer of the mapping. *)
Theorem handlers_keep_bars_map (w : World) :
  (∀ bars flag, bars_map (on_bar bars flag w).2 = bars_map w) ∧
  (∀ s, bars_map (shutdown s w).2 = bars_map w) ∧
  (∀ events, bars_map (run events w).2 = bars_map w) ∧
  bars_map (connect_to_ib w).2 = bars_map w ∧
  bars_map (setup_output_directory w).2 = bars_map w ∧
  bars_map (register_callbacks w).2 = bars_map w.
Proof.
  repeat split; intros.
  - apply on_bar_keeps_bars_map.
  - apply shutdown_keeps_bars_map.
  - apply run_keeps_bars_map.
  - apply connect_to_ib_keeps_bars_map.
  - apply setup_output_directory_keeps_bars_map.
  - apply register_callbacks_keeps_bars_map.
Qed.

(** ** Shutdown *)

Lemma try_close_eq f w :
  try_pass (file_close f) w =
  match fault (env w) (length (trace w)) (CClose f) with
  | Some msg => (Val tt, set_trace (trace w ++ [(CClose f, Some msg)]) w)
  | None => (Val tt, drain f true (set_trace (trace w ++ [(CClose f, None)]) w))
  end.
Proof.
  unfold try_pass. rewrite file_close_eq. by destruct (fault _ _ _).
Qed.

(** The loop of [shutdown] over the values of [bars_map]. *)
Lemma close_all_spec (l : list Ctx) (w : World) :
  ∃ w' closes,
    for_each l (λ ctx, try_pass (file_close (file ctx))) w = (Val tt, w') ∧
    trace w' = trace w ++ closes ∧
    closes.*1 = (λ ctx, CClose (file ctx)) <$> l ∧
    ib w' = ib w ∧ stdout w' = stdout w ∧ env w' = env w ∧
    (∀ f o, files w !! f = Some o → closed o = true →
            files w' !! f = Some o) ∧
    (∀ f, files w !! f = None → files w' !! f = None) ∧
    (∀ f o, (CClose f, None) ∈ closes → files w' !! f = Some o →
            closed o = true).
Proof.
  revert w. induction l as [|ctx l IH]; intros w.
  - exists w, []. cbn. rewrite app_nil_r. repeat split; try done.
    intros f o Hin. by apply elem_of_nil in Hin.
  - cbn [for_each]. unfold bind at 1. rewrite try_close_eq.
    set (out := fault (env w) (length (trace w)) (CClose (file ctx))).
    set (w1 := match out with
               | Some msg => set_trace (trace w ++ [(CClose (file ctx), Some msg)]) w
               | None => drain (file ctx) true
                           (set_trace (trace w ++ [(CClose (file ctx), None)]) w)
               end).
    assert (Htr : trace w1 = trace w ++ [(CClose (file ctx), out)]).
    { subst w1. destruct out; [done|].
      by rewrite (proj2 (proj2 (proj2 (proj2 (proj2 (proj2 (proj2 (proj2
                   (drain_other_fields _ _ _))))))))). }
    assert (Hother : ib w1 = ib w ∧ stdout w1 = stdout w ∧ env w1 = env w).
    { subst w1. destruct out; [done|].
      destruct (drain_other_fields (file ctx) true
                  (set_trace (trace w ++ [(CClose (file ctx), None)]) w))
        as (-> & -> & _ & _ & _ & _ & _ & -> & _). done. }
    assert (Hmono : ∀ f o, files w !! f = Some o → closed o = true →
                           files w1 !! f = Some o).
    { intros f o Hf Hc. subst w1. destruct out; [done|].
      by apply drain_closed_mono. }
    assert (Hnone : ∀ f, files w !! f = None → files w1 !! f = None).
    { intros f Hf. subst w1. destruct out; [done|].
      rewrite drain_files. wsimpl. case_decide; [subst|done]. by rewrite Hf. }
    assert (Hnow : out = None → ∀ o, files w1 !! file ctx = Some o →
                                     closed o = true).
    { intros Ho o. subst w1. rewrite Ho. apply drain_true_closed. }
    destruct (IH w1) as (w' & closes & Hrun & Htr' & Hcalls & Hib & Hout
                         & Henv & Hmono' & Hnone' & Hclosed).
    exists w', ((CClose (file ctx), out) :: closes).
    assert (Hgo : (match out with
                   | Some msg =>
                       (Val tt, set_trace (trace w ++ [(CClose (file ctx), Some msg)]) w)
                   | None =>
                       (Val tt, drain (file ctx) true
                                  (set_trace (trace w ++ [(CClose (file ctx), None)]) w))
                   end) = (Val tt, w1)).
    { subst w1. by destruct out. }
    rewrite Hgo. destruct Hother as (Hib1 & Hout1 & Henv1).
    split; [exact Hrun|]. split.
    { rewrite Htr', Htr. by rewrite <- app_assoc. }
    split; [cbn; by rewrite Hcalls|].
    split; [congruence|]. split; [congruence|]. split; [congruence|].
    split; [eauto|]. split; [eauto|].
    intros f o Hin Hf. apply elem_of_cons in Hin as [Heq|Hin]; [|eauto].
    injection Heq as -> Ho.
    destruct (files w1 !! file ctx) as [o1|] eqn:H1.
    + assert (closed o1 = true) by eauto.
      assert (files w' !! file ctx = Some o1) by eauto. congruence.
    + rewrite (Hnone' _ H1) in Hf. done.
Qed.

Lemma try_disconnect_eq w c :
  ib w = Some c →
  try_pass ib_disconnect w =
  match fault (env w) (length (trace w)) CDisconnect with
  | Some msg => (Val tt, set_trace (trace w ++ [(CDisconnect, Some msg)]) w)
  | None =>
      (Val tt, set_ib (Some {| connected := false |})
                 (set_trace (trace w ++ [(CDisconnect, None)]) w))
  end.
Proof.
  intros Hib. unfold try_pass, ib_disconnect, bind, gets, modify.
  rewrite Hib, call_eq. by destruct (fault _ _ _).
Qed.

(** The whole handler: what it returns and what it did on the way. *)
Lemma shutdown_spec (s : Signal) (w : World) :
  ∃ w' closes disc,
    shutdown s w = (Exn (SystemExit 0), w') ∧
    trace w' = trace w ++ closes ++ disc ∧
    closes.*1 = (λ ctx, CClose (file ctx)) <$> dict_values (bars_map w) ∧
    disc.*1 = match ib w with Some _ => [CDisconnect] | None => [] end ∧
    (∀ f o, (CClose f, None) ∈ closes → files w' !! f = Some o →
            closed o = true) ∧
    ((CDisconnect, None) ∈ disc → ib w' = Some {| connected := false |}) ∧
    (ib w = None → ib w' = None) ∧
    last (stdout w') = Some "Shutdown complete.".
Proof.
  unfold shutdown.
  set (line := nl +:+ "Received signal " +:+ pretty (signum s)
               +:+ ", shutting down...").
  unfold bind at 1. unfold print at 1. unfold modify at 1.
  unfold bind at 1. unfold gets at 1. wsimpl.
  set (w0 := set_stdout (stdout w ++ [line]) w).
  destruct (close_all_spec (dict_values (bars_map w)) w0)
    as (w1 & closes & Hrun & Htr & Hcalls & Hib & Hout & Henv & _ & Hnone
        & Hclosed).
  unfold bind at 1. rewrite Hrun.
  unfold bind at 1. unfold gets at 1. rewrite Hib. subst w0. wsimpl.
  destruct (ib w) as [c|] eqn:Hibw.
  - unfold bind at 1. rewrite (try_disconnect_eq w1 c) by (by rewrite Hib).
    destruct (fault (env w1) (length (trace w1)) CDisconnect) as [msg|] eqn:Hf.
    + eexists _, closes, [(CDisconnect, Some msg)].
      unfold_m. wsimpl. split; [reflexivity|]. wsimpl.
      split; [by rewrite Htr, <- app_assoc|].
      split; [done|]. split; [done|]. split; [exact Hclosed|].
      split; [|split; [done|by rewrite last_snoc]].
      intros Hin. apply elem_of_cons in Hin as [Heq|Hin]; [done|].
      by apply elem_of_nil in Hin.
    + eexists _, closes, [(CDisconnect, None)].
      unfold_m. wsimpl. split; [reflexivity|]. wsimpl.
      split; [by rewrite Htr, <- app_assoc|].
      split; [done|]. split; [done|]. split; [exact Hclosed|].
      split; [done|split; [done|by rewrite last_snoc]].
  - eexists _, closes, [].
    unfold_m. wsimpl. split; [reflexivity|]. wsimpl.
    split; [by rewrite Htr, app_nil_r|].
    split; [done|]. split; [done|]. split; [exact Hclosed|].
    split; [|split; [by rewrite Hib|by rewrite last_snoc]].
    intros Hin. by apply elem_of_nil in Hin.
Qed.

(** ** The bar handler *)

Lemma on_bar_body_mild bars : mild (on_bar_body bars).
Proof.
  unfold on_bar_body, bars_map_getitem, last_item, writerow, flush.
  repeat first
    [ apply mild_bind; [|intros ?]
    | apply mild_gets | apply mild_call | apply mild_modify
    | apply mild_ret | apply mild_raise
    | match goal with |- mild (match ?x with _ => _ end) => destruct x end ].
Qed.

Lemma on_bar_safe bars flag : safe (on_bar bars flag).
Proof.
  unfold on_bar. destruct flag; cbn [negb]; [|apply safe_ret].
  apply safe_try_except; [apply on_bar_body_mild|intros e; apply safe_print].
Qed.

(** What the handler prints: nothing when the [try] block completes, one
    line with the error text when it raises. *)
Lemma on_bar_body_quiet bars : keeps (same stdout) (on_bar_body bars).
Proof.
  unfold on_bar_body, bars_map_getitem, last_item, writerow, flush.
  keeps_field.
Qed.

Lemma on_bar_logs bars w :
  match on_bar_body bars w with
  | (Val _, w1) => on_bar bars true w = (Val tt, w1)
  | (Exn (Exception msg), w1) =>
      on_bar bars true w =
      (Val tt, set_stdout (stdout w1 ++ ["Error processing bar data: " +:+ msg]) w1)
  | (Exn _, _) => False
  end.
Proof.
  pose proof (on_bar_body_mild bars w) as Hm.
  unfold on_bar, try_except. cbn [negb].
  destruct (on_bar_body bars w) as [[[]|[msg| |c]] w1]; cbn in *; done.
Qed.

(** The handler in the good case, as an explicit state update. *)
Lemma on_bar_body_ok bars ctx bar o w :
  dict_get (ident bars) (bars_map w) = Some ctx →
  last (items bars) = Some bar →
  fileobj (writer ctx) = file ctx →
  files w !! file ctx = Some o →
  closed o = false →
  fault (env w) (length (trace w)) (CWriterow (file ctx) (bar_row bar)) = None →
  fault (env w) (S (length (trace w))) (CFlush (file ctx)) = None →
  on_bar_body bars w =
  (Val tt,
   set_files (<[file ctx := {| fpath := fpath o; closed := false; buf := [] |}]>
                (files w))
     (set_disk (<[fpath o := file_content w (fpath o) ++ buf o ++ [bar_row bar]]>
                  (disk w))
        (set_trace (trace w ++ [(CWriterow (file ctx) (bar_row bar), None);
                                (CFlush (file ctx), None)]) w))).
Proof.
  intros Hctx Hbar Hwr Hf Hopen Hw Hfl.
  unfold on_bar_body, bars_map_getitem, last_item, writerow, flush.
  unfold_m. rewrite Hctx, Hbar, Hwr. unfold file_pre. rewrite Hf, Hopen, Hw.
  wsimpl. rewrite lookup_alter_eq, Hf. cbn [fmap option_fmap option_map push_row closed].
  rewrite Hopen. rewrite length_app. cbn [length]. rewrite Nat.add_1_r, Hfl.
  unfold drain. wsimpl. rewrite lookup_alter_eq, Hf.
  cbn [fmap option_fmap option_map push_row closed fpath buf].
  rewrite Hopen. unfold file_content. wsimpl.
  f_equal. unfold set_files, set_disk, set_trace. wsimpl.
  f_equal.
  - apply map_eq. intros g. destruct (decide (g = file ctx)) as [->|Hg].
    + by rewrite !lookup_insert_eq.
    + rewrite !lookup_insert_ne by done. by rewrite lookup_alter_ne.
  - by rewrite <- app_assoc.
Qed.

Lemma on_bar_body_eq bars w :
  on_bar_body bars w =
  match dict_get (ident bars) (bars_map w) with
  | None => (Exn (Exception "KeyError"), w)
  | Some ctx =>
      match last (items bars) with
      | None => (Exn (Exception "list index out of range"), w)
      | Some bar =>
          (writerow (writer ctx) (bar_row bar) ;;; flush (file ctx)) w
      end
  end.
Proof.
  unfold on_bar_body, bars_map_getitem, last_item.
  unfold bind at 1. unfold bind at 1. unfold gets at 1.
  destruct (dict_get _ _) as [ctx|]; [|done].
  unfold ret at 1. unfold bind at 1.
  destruct (last _) as [bar|]; done.
Qed.

Lemma writerow_frame wr r w :
  let w' := (writerow wr r w).2 in
  env w' = env w ∧ ib w' = ib w ∧ bars_map w' = bars_map w ∧
  stdout w' = stdout w ∧ disk w' = disk w ∧
  (∀ g, g ≠ fileobj wr → files w' !! g = files w !! g) ∧
  (∀ g, path_of w' g = path_of w g) ∧
  (∀ g, closed <$> files w' !! g = closed <$> files w !! g).
Proof.
  unfold writerow, path_of. unfold_m. wsimpl.
  destruct (match file_pre (fileobj wr) w with
            | Some msg => Some msg
            | None => fault (env w) (length (trace w)) (CWriterow (fileobj wr) r)
            end) as [msg|]; wsimpl; [done|].
  split_and!; try done.
  - intros g Hg. by rewrite lookup_alter_ne.
  - intros g. destruct (decide (g = fileobj wr)) as [->|Hg].
    + rewrite lookup_alter_eq. by destruct (files w !! fileobj wr).
    + by rewrite lookup_alter_ne.
  - intros g. destruct (decide (g = fileobj wr)) as [->|Hg].
    + rewrite lookup_alter_eq. by destruct (files w !! fileobj wr).
    + by rewrite lookup_alter_ne.
Qed.

Lemma flush_frame f w :
  let w' := (flush f w).2 in
  env w' = env w ∧ ib w' = ib w ∧ bars_map w' = bars_map w ∧
  stdout w' = stdout w ∧
  (∀ g, g ≠ f → files w' !! g = files w !! g) ∧
  (∀ g, path_of w' g = path_of w g) ∧
  (∀ g, closed <$> files w' !! g = closed <$> files w !! g) ∧
  (∀ p, path_of w f ≠ Some p → disk w' !! p = disk w !! p).
Proof.
  unfold flush, path_of. unfold_m. wsimpl.
  destruct (match file_pre f w with
            | Some msg => Some msg
            | None => fault (env w) (length (trace w)) (CFlush f)
            end) as [msg|]; wsimpl; [done|].
  set (w2 := set_trace _ w).
  destruct (drain_other_fields f false w2)
    as (-> & -> & -> & _ & _ & _ & _ & -> & _).
  split_and!; try done.
  - intros g Hg. rewrite drain_files, decide_False by done. done.
  - intros g. rewrite drain_files. case_decide; [subst g|done].
    subst w2; wsimpl. destruct (files w !! f) as [o|]; [|done].
    by destruct (closed o).
  - intros g. rewrite drain_files. case_decide; [subst g|done].
    subst w2; wsimpl. destruct (files w !! f) as [o|]; [|done].
    destruct (closed o) eqn:Hc; cbn; by rewrite ?Hc.
  - intros p Hp. unfold drain. subst w2; wsimpl.
    destruct (files w !! f) as [o|] eqn:Hf; [|done].
    destruct (closed o); wsimpl; [done|].
    rewrite lookup_insert_ne; [done|]. intros <-. by apply Hp.
Qed.

(** A write followed by a flush touches the two file objects involved and
    the file behind the flushed one, nothing else. *)
Lemma write_flush_frame wr r f w :
  let w' := ((writerow wr r ;;; flush f) w).2 in
  env w' = env w ∧ ib w' = ib w ∧ bars_map w' = bars_map w ∧
  stdout w' = stdout w ∧
  (∀ g, g ≠ fileobj wr → g ≠ f → files w' !! g = files w !! g) ∧
  (∀ g, path_of w' g = path_of w g) ∧
  (∀ g, closed <$> files w' !! g = closed <$> files w !! g) ∧
  (∀ p, path_of w f ≠ Some p → disk w' !! p = disk w !! p).
Proof.
  cbn zeta. unfold bind.
  pose proof (writerow_frame wr r w) as H1. cbn zeta in H1.
  destruct (writerow wr r w) as [[[]|e] w1]; cbn beta iota; cbn [snd] in *;
    destruct H1 as (He & Hi & Hb & Hs & Hd & Hf & Hp & Hc).
  - pose proof (flush_frame f w1) as H2. cbn zeta in H2.
    destruct H2 as (He2 & Hi2 & Hb2 & Hs2 & Hf2 & Hp2 & Hc2 & Hd2).
    split_and!; [congruence|congruence|congruence|congruence|..].
    + intros g Hg1 Hg2. etrans; [by apply Hf2|by apply Hf].
    + intros g. etrans; [apply Hp2|apply Hp].
    + intros g. etrans; [apply Hc2|apply Hc].
    + intros p Hpp. rewrite <- Hd. apply Hd2. by rewrite Hp.
  - split_and!; [done|done|done|done|intros; by apply Hf|done|done|].
    intros p _. by rewrite Hd.
Qed.

(** The same for the handler as a whole, whatever happens inside. *)
Lemma on_bar_frame bars flag w :
  let w' := (on_bar bars flag w).2 in
  env w' = env w ∧ ib w' = ib w ∧ bars_map w' = bars_map w ∧
  (∀ g, path_of w' g = path_of w g) ∧
  (∀ g, closed <$> files w' !! g = closed <$> files w !! g) ∧
  (∀ g, (∀ ctx, dict_get (ident bars) (bars_map w) = Some ctx →
                g ≠ fileobj (writer ctx) ∧ g ≠ file ctx) →
        files w' !! g = files w !! g) ∧
  (∀ p, (∀ ctx, dict_get (ident bars) (bars_map w) = Some ctx →
                path_of w (file ctx) ≠ Some p) →
        disk w' !! p = disk w !! p).
Proof.
  destruct flag; [|cbn; repeat split; done].
  pose proof (on_bar_logs bars w) as Hlog.
  rewrite on_bar_body_eq in Hlog.
  destruct (dict_get (ident bars) (bars_map w)) as [ctx|] eqn:Hctx.
  2:{ rewrite Hlog. cbn. repeat split; done. }
  destruct (last (items bars)) as [bar|] eqn:Hbar.
  2:{ rewrite Hlog. cbn. repeat split; done. }
  pose proof (write_flush_frame (writer ctx) (bar_row bar) (file ctx) w) as Hfr.
  cbn zeta in Hfr.
  destruct ((writerow (writer ctx) (bar_row bar) ;;; flush (file ctx)) w)
    as [[[]|[msg| |c]] w1]; try done; rewrite Hlog; cbn [snd] in *;
    destruct Hfr as (He & Hi & Hb & Hs & Hf & Hp & Hc & Hd); wsimpl;
    (repeat split; try done;
     [ intros g Hg; destruct (Hg ctx eq_refl); eauto
     | intros p Hp'; apply Hd; eauto ]).
Qed.

(** ** The mapping as a dict, and its well-formedness *)

Lemma dict_get_lookup {V} (k : nat) (d : list (nat * V)) (v : V) :
  dict_get k d = Some v → ∃ i, d !! i = Some (k, v).
Proof.
  induction d as [|[k' v'] d IH]; cbn; [done|].
  case_decide as Hk.
  - intros [= ->]. subst. by exists 0%nat.
  - intros H. destruct (IH H) as [i Hi]. by exists (S i).
Qed.

Lemma dict_get_elem {V} (k : nat) (d : list (nat * V)) (v : V) :
  dict_get k d = Some v → (k, v) ∈ d.
Proof.
  intros H. destruct (dict_get_lookup _ _ _ H) as [i Hi].
  by eapply list_elem_of_lookup_2.
Qed.

Lemma dict_get_value {V} (k : nat) (d : list (nat * V)) (v : V) :
  dict_get k d = Some v → v ∈ dict_values d.
Proof.
  intros H. apply dict_get_elem in H. unfold dict_values.
  apply list_elem_of_fmap. by exists (k, v).
Qed.

Lemma dict_get_None {V} (k : nat) (d : list (nat * V)) :
  dict_get k d = None ↔ k ∉ dict_keys d.
Proof.
  unfold dict_keys. induction d as [|[k' v'] d IH]; cbn.
  - split; [intros _; apply not_elem_of_nil|done].
  - case_decide as Hk.
    + split; [done|]. intros Hn. exfalso. apply Hn. subst. apply elem_of_cons. by left.
    + rewrite IH, not_elem_of_cons. cbn. split; [by intros ?|by intros [_ ?]].
Qed.


(** Two entries under different keys are different in every component that
    is injective along the mapping. *)
Lemma dict_distinct {V X} (f : V → X) (d : list (nat * V)) k1 k2 v1 v2 :
  NoDup (f <$> dict_values d) →
  dict_get k1 d = Some v1 → dict_get k2 d = Some v2 → k1 ≠ k2 →
  f v1 ≠ f v2.
Proof.
  intros Hnd H1 H2 Hk Heq.
  destruct (dict_get_lookup _ _ _ H1) as [i Hi].
  destruct (dict_get_lookup _ _ _ H2) as [j Hj].
  assert (Hi' : (f <$> dict_values d) !! i = Some (f v1)).
  { unfold dict_values. by rewrite !list_lookup_fmap, Hi. }
  assert (Hj' : (f <$> dict_values d) !! j = Some (f v2)).
  { unfold dict_values. by rewrite !list_lookup_fmap, Hj. }
  rewrite <- Heq in Hj'.
  assert (i = j) by (eapply NoDup_lookup; eauto). subst j.
  rewrite Hi in Hj. by injection Hj.
Qed.

Lemma wf_map_entry w h ctx :
  wf_map w → dict_get h (bars_map w) = Some ctx → entry_ok w ctx.
Proof.
  intros Hwf Hget. apply dict_get_value in Hget.
  pose proof (wf_entries _ Hwf) as Hall.
  rewrite Forall_forall in Hall. by apply Hall.
Qed.

(** Well-formedness only looks at the mapping, the configuration and the
    paths of the file objects. *)
Lemma wf_map_transfer w w' :
  env w' = env w → bars_map w' = bars_map w →
  (∀ g, path_of w' g = path_of w g) →
  wf_map w → wf_map w'.
Proof.
  intros He Hb Hp [Hk Hs Hpa Hen]. split.
  - by rewrite Hb.
  - unfold subscribed. by rewrite Hb.
  - rewrite Hb. erewrite list_fmap_ext; [exact Hpa|]. intros i x _. apply Hp.
  - rewrite Hb. eapply Forall_impl; [exact Hen|].
    intros ctx [H1 H2]. split; [done|]. by rewrite Hp, He.
Qed.

Lemma resource_frame w w' g :
  files w' !! g = files w !! g →
  (∀ p, path_of w g = Some p → disk w' !! p = disk w !! p) →
  resource w' g = resource w g.
Proof.
  intros Hf Hd. unfold resource, file_content. rewrite Hf.
  destruct (files w !! g) as [o|] eqn:Hg; [|done].
  rewrite Hd; [done|]. unfold path_of. by rewrite Hg.
Qed.

(** Entries under different subscriptions have different file objects on
    different files. *)
Lemma wf_map_apart w h1 h2 c1 c2 :
  wf_map w →
  dict_get h1 (bars_map w) = Some c1 → dict_get h2 (bars_map w) = Some c2 →
  h1 ≠ h2 →
  symbol c1 ≠ symbol c2 ∧ file c1 ≠ file c2 ∧
  path_of w (file c1) ≠ path_of w (file c2).
Proof.
  intros Hwf H1 H2 Hne.
  assert (Hp : path_of w (file c1) ≠ path_of w (file c2)).
  { eapply (dict_distinct (λ ctx, path_of w (file ctx))); eauto.
    apply Hwf. }
  split_and!; [|congruence|done].
  eapply (dict_distinct symbol); eauto. apply Hwf.
Qed.

(** ** One delivery, then many *)

Lemma on_bar_delivers bars ctx bar w :
  wf_map w →
  dict_get (ident bars) (bars_map w) = Some ctx →
  last (items bars) = Some bar →
  is_open w (file ctx) →
  fault (env w) (length (trace w)) (CWriterow (file ctx) (bar_row bar)) = None →
  fault (env w) (S (length (trace w))) (CFlush (file ctx)) = None →
  ∃ w',
    on_bar bars true w = (Val tt, w') ∧
    env w' = env w ∧ bars_map w' = bars_map w ∧ stdout w' = stdout w ∧
    trace w' = trace w ++ [(CWriterow (file ctx) (bar_row bar), None);
                           (CFlush (file ctx), None)] ∧
    (∀ g, path_of w' g = path_of w g) ∧
    (∀ g, closed <$> files w' !! g = closed <$> files w !! g) ∧
    resource w' (file ctx) = resource w (file ctx) ++ [bar_row bar] ∧
    (∃ o', files w' !! file ctx = Some o' ∧ buf o' = [] ∧
           file_content w' (fpath o') = resource w' (file ctx)) ∧
    (∀ h' ctx', dict_get h' (bars_map w) = Some ctx' → h' ≠ ident bars →
                files w' !! file ctx' = files w !! file ctx' ∧
                resource w' (file ctx') = resource w (file ctx')).
Proof.
  intros Hwf Hctx Hbar (o & Hf & Hopen) Hw Hfl.
  destruct (wf_map_entry _ _ _ Hwf Hctx) as [Hwr Hpath].
  pose proof (on_bar_logs bars w) as Hlog.
  pose proof (on_bar_frame bars true w) as Hfr. cbn zeta in Hfr.
  rewrite (on_bar_body_ok bars ctx bar o w) in Hlog by done.
  rewrite Hlog in Hfr. cbn [snd] in Hfr.
  destruct Hfr as (He & Hi & Hb & Hp & Hc & Hfiles & Hdisk).
  eexists. split; [exact Hlog|].
  split_and!; try done.
  - unfold resource, file_content. wsimpl. rewrite lookup_insert_eq, Hf.
    cbn [fpath buf]. rewrite lookup_insert_eq. cbn [default].
    by rewrite app_nil_r, app_assoc.
  - eexists. split; [wsimpl; by rewrite lookup_insert_eq|].
    split; [done|]. unfold resource. wsimpl. rewrite lookup_insert_eq.
    cbn [fpath buf]. by rewrite app_nil_r.
  - intros h' ctx' Hctx' Hne.
    destruct (wf_map_apart w h' (ident bars) ctx' ctx Hwf Hctx' Hctx Hne)
      as (_ & Hfile & Hpa).
    match goal with |- ?A ∧ _ => assert (Hsame : A) end.
    { wsimpl. by rewrite lookup_insert_ne. }
    split; [exact Hsame|].
    apply resource_frame; [exact Hsame|].
    intros p Hp'. wsimpl. rewrite lookup_insert_ne; [done|].
    intros <-. apply Hpa. rewrite Hp'. unfold path_of. by rewrite Hf.
Qed.



(** ** Subscription setup *)

Lemma open_append_eq path w :
  open_append path w =
  match fault (env w) (length (trace w)) (COpen path) with
  | Some msg =>
      (Exn (Exception msg), set_trace (trace w ++ [(COpen path, Some msg)]) w)
  | None =>
      (Val (next_id w),
       opened path (set_trace (trace w ++ [(COpen path, None)]) w))
  end.
Proof.
  unfold open_append. unfold bind at 1. rewrite call_eq.
  by destruct (fault _ _ _).
Qed.

Lemma file_content_opened path w p :
  file_content (opened path w) p = file_content w p.
Proof.
  unfold file_content, opened. wsimpl.
  destruct (disk w !! path) eqn:Hp; [done|].
  destruct (decide (p = path)) as [->|Hne].
  - by rewrite lookup_insert_eq, Hp.
  - by rewrite lookup_insert_ne.
Qed.

Lemma tell_opened path w :
  tell (next_id w) (opened path w) =
  (Val (length (file_content w path)), opened path w).
Proof.
  unfold tell. unfold opened at 1. wsimpl. rewrite lookup_insert_eq.
  cbn [closed fpath buf length]. by rewrite file_content_opened, Nat.add_0_r.
Qed.

Lemma file_pre_opened path w : file_pre (next_id w) (opened path w) = None.
Proof. unfold file_pre, opened. wsimpl. by rewrite lookup_insert_eq. Qed.

Lemma bind_eq {A B} (m : M A) (k : A → M B) w :
  bind m k w =
  match m w with
  | (Val a, w') => k a w'
  | (Exn e, w') => (Exn e, w')
  end.
Proof. reflexivity. Qed.

(** The end of the loop body: the subscription request and the new entry. *)
Lemma subscribe_eq sym ctx w :
  (bars <- reqRealTimeBars
             {| c_symbol := sym; c_exchange := "SMART"; c_currency := "USD" |}
             5 "TRADES" false ;;
   bars_map_setitem bars ctx ;;;
   print ("✓ Set up streaming for " +:+ sym)) w =
  match ib w with
  | None => (Exn (Exception (none_has_no "reqRealTimeBars")), w)
  | Some _ =>
      match fault (env w) (length (trace w)) (req_call sym) with
      | Some msg =>
          (Exn (Exception msg),
           set_trace (trace w ++ [(req_call sym, Some msg)]) w)
      | None =>
          (Val tt,
           set_stdout (stdout w ++ [ok_line sym])
             (set_bars_map (dict_set (next_id w) ctx (bars_map w))
                (set_next_id (S (next_id w))
                   (set_trace (trace w ++ [(req_call sym, None)]) w))))
      end
  end.
Proof.
  rewrite bind_eq. unfold reqRealTimeBars. rewrite bind_eq.
  unfold gets at 1. cbn beta iota. destruct (ib w); [|done].
  rewrite bind_eq, call_eq. fold (req_call sym).
  by destruct (fault _ _ _).
Qed.

Lemma setup_symbol_step sym w :
  ∃ w' out, setup_symbol sym w = (Val tt, w') ∧ setup_step sym w w' out ∧
        env w' = env w ∧ ib w' = ib w ∧ sig_handlers w' = sig_handlers w ∧
        updateEvent w' = updateEvent w ∧ dirs w' = dirs w.
Proof.
  unfold setup_symbol, try_except.
  rewrite bind_eq. unfold Stock at 1. rewrite bind_eq, call_eq.
  fold (stock_call sym).
  destruct (fault (env w) (length (trace w)) (stock_call sym)) as [msg|] eqn:H1.
  { eexists _, _. split; [reflexivity|]. split; [|done].
    eapply (step_no_file _ _ _ msg); [by left|..]; reflexivity. }
  unfold ret at 1. cbn beta iota.
  set (w1 := set_trace _ w).
  rewrite bind_eq. unfold gets at 1. cbn beta iota.
  rewrite bind_eq, open_append_eq.
  change (env w1) with (env w).
  set (path := csv_path_of (OUTPUT_DIR (env w)) sym).
  destruct (fault (env w) (length (trace w1)) (COpen path)) as [msg|] eqn:H2.
  { eexists _, _. split; [reflexivity|]. split; [|done].
    eapply (step_no_file _ _ _ msg); [by right|..]; try reflexivity.
    subst w1. wsimpl. by rewrite <- app_assoc. }
  cbn beta iota.
  set (w2 := set_trace _ w1).
  rewrite bind_eq.
  change (next_id w1) with (next_id w2). rewrite tell_opened.
  cbn beta iota.
  change (file_content w2 path) with (file_content w path).
  rewrite bind_eq.
  assert (Htr2 : trace w2 = trace w ++ [(stock_call sym, None); (COpen path, None)]).
  { subst w2 w1. wsimpl. by rewrite <- app_assoc. }
  destruct (file_content w path) as [|r0 rows] eqn:Hcont; cbn [length Nat.eqb].
  - (* the file is empty: the header is written *)
    unfold writerow at 1. rewrite bind_eq. unfold gets at 1. cbn beta iota.
    cbn [csv_writer fileobj]. rewrite file_pre_opened. rewrite bind_eq, call_eq.
    destruct (fault _ _ (CWriterow _ _)) as [msg|] eqn:H3.
    { eexists _, _. split; [reflexivity|]. split; [|done].
      eapply (step_header_failed _ _ _ msg); try reflexivity; [done|].
      unfold print, modify. wsimpl. unfold opened. wsimpl.
      rewrite Htr2. by rewrite <- app_assoc. }
    unfold modify at 1. cbn beta iota.
    set (w3 := set_files _ _).
    rewrite subscribe_eq.
    change (ib w3) with (ib w).
    assert (Htr3 : trace w3 = trace w ++ [(stock_call sym, None); (COpen path, None);
                                         (CWriterow (next_id w) header, None)]).
    { subst w3. wsimpl. unfold opened. wsimpl. rewrite Htr2.
      by rewrite <- app_assoc. }
    assert (Hf3 : files w3 = <[next_id w := {| fpath := path; closed := false;
                                               buf := [header] |}]> (files w)).
    { subst w3. wsimpl. unfold opened. wsimpl.
      change (next_id w2) with (next_id w). change (files w2) with (files w).
      apply map_eq. intros g. destruct (decide (g = next_id w)) as [->|Hg].
      - by rewrite lookup_alter_eq, !lookup_insert_eq.
      - by rewrite lookup_alter_ne, !lookup_insert_ne. }
    destruct (ib w) as [c|] eqn:Hib.
    2:{ eexists _, _. split; [reflexivity|]. split; [|done].
        eapply (step_not_subscribed _ _ _ _ []); [by right| | | | | |].
        - unfold print, modify. wsimpl. rewrite Htr3.
          unfold header_calls. fold path. rewrite Hcont. by rewrite app_nil_r.
        - unfold print, modify. wsimpl. rewrite Hf3.
          unfold header_buf. fold path. by rewrite Hcont.
        - reflexivity.
        - reflexivity.
        - reflexivity.
        - reflexivity. }
    destruct (fault _ _ (req_call sym)) as [msg|] eqn:H4.
    { eexists _, _. split; [reflexivity|]. split; [|done].
      eapply (step_not_subscribed _ _ _ msg [_]); [by left| | | | | |].
      - unfold print, modify. wsimpl. rewrite Htr3.
        unfold header_calls. fold path. rewrite Hcont.
        by rewrite <- app_assoc.
      - unfold print, modify. wsimpl. rewrite Hf3.
        unfold header_buf. fold path. by rewrite Hcont.
      - reflexivity.
      - reflexivity.
      - reflexivity.
      - reflexivity. }
    eexists _, _. split; [reflexivity|]. split; [|done].
    eapply step_subscribed.
    + wsimpl. rewrite Htr3. unfold header_calls. fold path. rewrite Hcont.
      by rewrite <- app_assoc.
    + wsimpl. rewrite Hf3. unfold header_buf. fold path. by rewrite Hcont.
    + reflexivity.
    + reflexivity.
    + reflexivity.
    + reflexivity.
  - (* the file has content: no header *)
    unfold ret at 1. cbn beta iota.
    set (w3 := opened path w2).
    rewrite subscribe_eq.
    change (ib w3) with (ib w).
    assert (Htr3 : trace w3 = trace w ++ [(stock_call sym, None); (COpen path, None)]).
    { subst w3. unfold opened. wsimpl. by rewrite Htr2. }
    assert (Hf3 : files w3 = <[next_id w := {| fpath := path; closed := false;
                                               buf := [] |}]> (files w)).
    { reflexivity. }
    destruct (ib w) as [c|] eqn:Hib.
    2:{ eexists _, _. split; [reflexivity|]. split; [|done].
        eapply (step_not_subscribed _ _ _ _ []); [by right| | | | | |].
        - unfold print, modify. wsimpl. rewrite Htr3.
          unfold header_calls. fold path. rewrite Hcont. by rewrite !app_nil_r.
        - unfold print, modify. wsimpl. rewrite Hf3.
          unfold header_buf. fold path. by rewrite Hcont.
        - reflexivity.
        - reflexivity.
        - reflexivity.
        - reflexivity. }
    destruct (fault _ _ (req_call sym)) as [msg|] eqn:H4.
    { eexists _, _. split; [reflexivity|]. split; [|done].
      eapply (step_not_subscribed _ _ _ msg [_]); [by left| | | | | |].
      - unfold print, modify. wsimpl. rewrite Htr3.
        unfold header_calls. fold path. rewrite Hcont.
        by rewrite <- app_assoc.
      - unfold print, modify. wsimpl. rewrite Hf3.
        unfold header_buf. fold path. by rewrite Hcont.
      - reflexivity.
      - reflexivity.
      - reflexivity.
      - reflexivity. }
    eexists _, _. split; [reflexivity|]. split; [|done].
    eapply step_subscribed.
    + wsimpl. rewrite Htr3. unfold header_calls. fold path. rewrite Hcont.
      by rewrite <- app_assoc.
    + wsimpl. rewrite Hf3. unfold header_buf. fold path. by rewrite Hcont.
    + reflexivity.
    + reflexivity.
    + reflexivity.
    + reflexivity.
Qed.

(** ** Paths of the output files *)

Lemma list_ascii_app (s1 s2 : string) :
  String.list_ascii_of_string (s1 +:+ s2) =
  String.list_ascii_of_string s1 ++ String.list_ascii_of_string s2.
Proof. induction s1 as [|c s1 IH]; simpl; [done|]. f_equal. exact IH. Qed.

Lemma list_ascii_inj (s1 s2 : string) :
  String.list_ascii_of_string s1 = String.list_ascii_of_string s2 → s1 = s2.
Proof.
  intros H. rewrite <- (String.string_of_list_ascii_of_string s1).
  rewrite <- (String.string_of_list_ascii_of_string s2). by rewrite H.
Qed.

Lemma string_app_inj_r (s1 s2 t : string) : s1 +:+ t = s2 +:+ t → s1 = s2.
Proof.
  intros H. apply list_ascii_inj.
  apply (f_equal String.list_ascii_of_string) in H.
  rewrite !list_ascii_app in H. by apply app_inv_tail in H.
Qed.

Lemma plain_csv (sym : string) :
  plain sym → startswith_sep (sym +:+ ".csv") = false.
Proof. unfold plain. by destruct sym. Qed.

(** Different plain symbols get different files. *)
Lemma csv_path_inj (dir s1 s2 : string) :
  plain s1 → plain s2 →
  csv_path_of dir s1 = csv_path_of dir s2 → s1 = s2.
Proof.
  intros H1 H2. unfold csv_path_of, path_join.
  rewrite (plain_csv _ H1), (plain_csv _ H2).
  destruct (String.eqb dir "" || endswith_sep dir); intros H.
  - apply String.app_inj in H. by apply string_app_inj_r in H.
  - apply String.app_inj in H. apply String.app_inj in H.
    by apply string_app_inj_r in H.
Qed.

Lemma TICKERS_plain : Forall plain TICKERS.
Proof. unfold plain. by repeat constructor. Qed.

Lemma TICKERS_NoDup : NoDup TICKERS.
Proof. apply (@bool_decide_unpack _ (NoDup_dec TICKERS)). by vm_compute. Qed.

(** ** The loop invariant of [setup_streaming] *)

Lemma wf_map_transfer_on_entries w w' :
  env w' = env w → bars_map w' = bars_map w →
  (∀ g, is_Some (files w !! g) → path_of w' g = path_of w g) →
  wf_map w → wf_map w'.
Proof.
  intros He Hb Hp [Hk Hs Hpa Hen].
  assert (Hsame : ∀ ctx, ctx ∈ dict_values (bars_map w) →
                         path_of w' (file ctx) = path_of w (file ctx)).
  { intros ctx Hin. apply Hp. rewrite Forall_forall in Hen.
    destruct (Hen ctx Hin) as [_ Hpath]. unfold path_of in Hpath.
    destruct (files w !! file ctx); [by eexists|done]. }
  split.
  - by rewrite Hb.
  - unfold subscribed. by rewrite Hb.
  - rewrite Hb. erewrite list_fmap_ext; [exact Hpa|].
    intros i x Hx. apply Hsame. by eapply list_elem_of_lookup_2.
  - rewrite Hb. rewrite Forall_forall in Hen |- *.
    intros ctx Hin. destruct (Hen ctx Hin) as [H1 H2].
    split; [done|]. by rewrite Hsame, He.
Qed.

Lemma dict_set_fresh {V} (k : nat) (v : V) (d : list (nat * V)) :
  k ∉ dict_keys d → dict_set k v d = d ++ [(k, v)].
Proof.
  unfold dict_keys. induction d as [|[k' v'] d IH]; cbn; [done|].
  intros Hk. apply not_elem_of_cons in Hk as [Hne Hk].
  rewrite decide_False by done. by rewrite IH.
Qed.

(** The three shapes a round can have, as far as the heap and the mapping
    are concerned. *)
Lemma setup_step_shape sym w w' out :
  setup_step sym w w' out →
  let path := csv_path_of (OUTPUT_DIR (env w)) sym in
  (files w' = files w ∧ next_id w' = next_id w ∧ bars_map w' = bars_map w ∧
   disk w' = disk w ∧ is_Some out) ∨
  (∃ hb, files w' = <[next_id w := {| fpath := path; closed := false;
                                      buf := hb |}]> (files w) ∧
         disk w' = disk (opened path w) ∧
         (hb = [] ∨ (hb = [header] ∧ file_content w path = [])) ∧
         ((next_id w' = S (next_id w) ∧ bars_map w' = bars_map w ∧
           is_Some out) ∨
          (next_id w' = S (S (next_id w)) ∧ out = None ∧
           hb = header_buf w path ∧
           bars_map w' =
             dict_set (S (next_id w))
               {| symbol := sym; writer := csv_writer (next_id w);
                  file := next_id w |} (bars_map w)))).
Proof.
  assert (Hhb : ∀ path, header_buf w path = [] ∨
                        (header_buf w path = [header] ∧
                         file_content w path = [])).
  { intros path. unfold header_buf.
    destruct (file_content w path); [by right|by left]. }
  intros [msg new _ _ Hf Hd Hn Hb _
         |msg path Hc _ Hf Hd Hn Hb _
         |msg rq path _ _ Hf Hd Hn Hb _
         |path _ Hf Hd Hn Hb _]; cbn zeta.
  - left. split_and!; try done; by eexists.
  - right. exists []. split_and!; [done|done|by left|].
    left. split_and!; try done; by eexists.
  - right. exists (header_buf w path). split_and!; [done|done|apply Hhb|].
    left. split_and!; try done; by eexists.
  - right. exists (header_buf w path). split_and!; [done|done|apply Hhb|].
    right. done.
Qed.

Lemma setup_inv_weaken seen sym w :
  setup_inv seen w → setup_inv (sym :: seen) w.
Proof.
  intros [H1 H2 H3 H4 H5 H6 H7]. split; try done.
  - intros f o Hf. destruct (H3 f o Hf) as (s & Hs & Hp).
    exists s. split; [apply elem_of_cons; by right|done].
  - intros s Hs. apply elem_of_cons. right. by apply H6.
Qed.

Lemma setup_inv_transfer seen w w' :
  env w' = env w → files w' = files w → next_id w' = next_id w →
  bars_map w' = bars_map w →
  setup_inv seen w → setup_inv seen w'.
Proof.
  intros He Hf Hn Hb [H1 H2 H3 H4 H5 H6 H7]. split.
  - rewrite Hf, Hn. exact H1.
  - rewrite Hb, Hn. exact H2.
  - rewrite Hf, He. exact H3.
  - rewrite Hf. exact H4.
  - eapply wf_map_transfer_on_entries; [done|done| |done].
    intros g _. unfold path_of. by rewrite Hf.
  - unfold subscribed. rewrite Hb. exact H6.
  - rewrite Hb. unfold is_open. rewrite Hf. exact H7.
Qed.

Lemma setup_inv_fresh seen w :
  setup_inv seen w → files w !! next_id w = None.
Proof.
  intros Hinv. destruct (files w !! next_id w) as [o|] eqn:Hf; [|done].
  pose proof (si_heap _ _ Hinv _ _ Hf). lia.
Qed.

(** A path that belongs to a new symbol is not the path of any file object
    there is. *)
Lemma setup_inv_new_path seen w sym g o :
  setup_inv seen w → Forall plain seen → plain sym → sym ∉ seen →
  files w !! g = Some o →
  fpath o ≠ csv_path_of (OUTPUT_DIR (env w)) sym.
Proof.
  intros Hinv Hpl Hp Hnew Hg Heq.
  destruct (si_prov _ _ Hinv _ _ Hg) as (s & Hs & Hpath).
  rewrite Forall_forall in Hpl.
  assert (s = sym); [|by subst].
  eapply csv_path_inj; [by apply Hpl|done|]. by rewrite <- Hpath.
Qed.

Lemma setup_inv_step seen sym w w' out :
  setup_inv seen w → Forall plain seen → plain sym → sym ∉ seen →
  setup_step sym w w' out → env w' = env w →
  setup_inv (sym :: seen) w'.
Proof.
  intros Hinv Hpl Hp Hnew Hstep He.
  pose proof (setup_inv_fresh _ _ Hinv) as Hfresh.
  destruct (setup_step_shape _ _ _ _ Hstep)
    as [(Hf & Hn & Hb & _)|(hb & Hf & _ & _ & Hrest)].
  { apply setup_inv_weaken. by eapply setup_inv_transfer. }
  set (f := next_id w) in *.
  set (path := csv_path_of (OUTPUT_DIR (env w)) sym) in *.
  set (o := {| fpath := path; closed := false; buf := hb |}) in *.
  assert (Hold : ∀ g, is_Some (files w !! g) → files w' !! g = files w !! g).
  { intros g [og Hg]. rewrite Hf. rewrite lookup_insert_ne; [done|].
    intros <-. congruence. }
  assert (Hnext : (f < next_id w')%nat).
  { destruct Hrest as [(-> & _)|(-> & _)]; lia. }
  assert (Hheap : ∀ g og, files w' !! g = Some og → (g < next_id w')%nat).
  { intros g og. rewrite Hf. destruct (decide (g = f)) as [->|Hg].
    - done.
    - rewrite lookup_insert_ne by done. intros Hgo.
      pose proof (si_heap _ _ Hinv _ _ Hgo). lia. }
  assert (Hprov : ∀ g og, files w' !! g = Some og →
            ∃ s, s ∈ sym :: seen ∧ fpath og = csv_path_of (OUTPUT_DIR (env w')) s).
  { intros g og. rewrite Hf, He. destruct (decide (g = f)) as [->|Hg].
    - rewrite lookup_insert_eq. intros [= <-]. exists sym.
      split; [apply elem_of_cons; by left|done].
    - rewrite lookup_insert_ne by done. intros Hgo.
      destruct (si_prov _ _ Hinv _ _ Hgo) as (s & Hs & Hpath).
      exists s. split; [apply elem_of_cons; by right|done]. }
  assert (Hone : ∀ f1 f2 o1 o2, files w' !! f1 = Some o1 →
            files w' !! f2 = Some o2 → fpath o1 = fpath o2 → f1 = f2).
  { intros f1 f2 o1 o2. rewrite Hf.
    destruct (decide (f1 = f)) as [->|H1], (decide (f2 = f)) as [->|H2];
      rewrite ?lookup_insert_eq, ?lookup_insert_ne by done; try done.
    - intros [= <-] H2' Heq. exfalso.
      eapply (setup_inv_new_path seen w sym f2 o2); eauto.
    - intros H1' [= <-] Heq. exfalso.
      eapply (setup_inv_new_path seen w sym f1 o1); eauto.
    - apply (si_one _ _ Hinv). }
  assert (Hopen_old : ∀ c, is_open w (file c) → is_open w' (file c)).
  { intros c (oc & Hc & Hcl). exists oc. split; [|done].
    rewrite Hold; [done|by eexists]. }
  assert (Hpath_old : ∀ g, is_Some (files w !! g) →
                           path_of w' g = path_of w g).
  { intros g Hg. unfold path_of. by rewrite Hold. }
  destruct Hrest as [(Hn & Hb & _)|(Hn & -> & _ & Hb)].
  - (* no new entry *)
    split; try done.
    + rewrite Hb. intros h Hh. pose proof (si_keys _ _ Hinv _ Hh). lia.
    + eapply wf_map_transfer_on_entries; [done|done|done|apply (si_wf _ _ Hinv)].
    + unfold subscribed. rewrite Hb. intros s Hs. apply elem_of_cons.
      right. by apply (si_sub _ _ Hinv).
    + rewrite Hb. eapply Forall_impl; [apply (si_open _ _ Hinv)|]. exact Hopen_old.
  - (* a new entry, under a new key *)
    set (ctx := {| symbol := sym; writer := csv_writer f; file := f |}) in *.
    assert (Hkey : S f ∉ dict_keys (bars_map w)).
    { intros Hin. pose proof (si_keys _ _ Hinv _ Hin). lia. }
    rewrite dict_set_fresh in Hb by done.
    assert (Hsym : sym ∉ subscribed w).
    { intros Hin. apply Hnew. by apply (si_sub _ _ Hinv). }
    assert (Hentries : ∀ c, c ∈ dict_values (bars_map w) →
              path_of w' (file c) =
              Some (csv_path_of (OUTPUT_DIR (env w)) (symbol c)) ∧
              symbol c ∈ seen ∧ fileobj (writer c) = file c).
    { intros c Hc. pose proof (wf_entries _ (si_wf _ _ Hinv)) as Hall.
      rewrite Forall_forall in Hall. destruct (Hall c Hc) as [Hw Hpc].
      split_and!; [|apply (si_sub _ _ Hinv); unfold subscribed;
                    apply list_elem_of_fmap; by exists c|done].
      rewrite Hpath_old; [done|]. unfold path_of in Hpc.
      destruct (files w !! file c); [by eexists|done]. }
    assert (Hpnew : path_of w' f = Some path).
    { unfold path_of. by rewrite Hf, lookup_insert_eq. }
    split; try done.
    + rewrite Hb. unfold dict_keys. rewrite fmap_app. intros h Hh.
      apply elem_of_app in Hh as [Hh|Hh].
      * pose proof (si_keys _ _ Hinv _ Hh). lia.
      * apply elem_of_cons in Hh as [->|Hh]; [cbn; lia|].
        by apply elem_of_nil in Hh.
    + split.
      * rewrite Hb. unfold dict_keys. rewrite fmap_app.
        apply NoDup_app. split; [apply (wf_keys _ (si_wf _ _ Hinv))|]. split.
        -- intros h Hh Hh'. apply elem_of_cons in Hh' as [->|Hh'];
             [done|by apply elem_of_nil in Hh'].
        -- apply NoDup_singleton.
      * unfold subscribed, dict_values. rewrite Hb, !fmap_app.
        apply NoDup_app. split; [apply (wf_symbols _ (si_wf _ _ Hinv))|]. split.
        -- intros s Hs Hs'. apply elem_of_cons in Hs' as [->|Hs'];
             [done|by apply elem_of_nil in Hs'].
        -- apply NoDup_singleton.
      * unfold dict_values. rewrite Hb, !fmap_app. cbn [fmap list_fmap snd].
        fold ctx. apply NoDup_app. split.
        { erewrite list_fmap_ext; [apply (wf_paths _ (si_wf _ _ Hinv))|].
          intros i c Hc. apply Hpath_old.
          apply list_elem_of_lookup_2 in Hc.
          pose proof (wf_entries _ (si_wf _ _ Hinv)) as Hall.
          rewrite Forall_forall in Hall. destruct (Hall c Hc) as [_ Hpc].
          unfold path_of in Hpc.
          destruct (files w !! file c); [by eexists|done]. }
        split; [|apply NoDup_singleton].
        intros p Hin Hin'. apply elem_of_cons in Hin' as [->|Hin'];
          [|by apply elem_of_nil in Hin'].
        apply list_elem_of_fmap in Hin as (c & Hpc & Hc).
        destruct (Hentries c Hc) as (Hpc' & Hseen & _).
        cbn [file ctx] in Hpc. rewrite Hpnew, Hpc' in Hpc.
        injection Hpc as Hpc. rewrite Forall_forall in Hpl.
        assert (sym = symbol c).
        { eapply csv_path_inj; [done|by apply Hpl|done]. }
        subst sym. done.
      * unfold dict_values. rewrite Hb, fmap_app. apply Forall_app. split.
        -- rewrite Forall_forall. intros c Hc.
           destruct (Hentries c Hc) as (Hpc' & _ & Hw).
           split; [done|]. by rewrite He.
        -- apply Forall_singleton. split; [done|]. by rewrite He.
    + unfold subscribed, dict_values. rewrite Hb, !fmap_app.
      intros s Hs. apply elem_of_app in Hs as [Hs|Hs].
      * apply elem_of_cons. right. by apply (si_sub _ _ Hinv).
      * apply elem_of_cons in Hs as [->|Hs]; [apply elem_of_cons; by left|].
        by apply elem_of_nil in Hs.
    + unfold dict_values. rewrite Hb, fmap_app. apply Forall_app. split.
      * eapply Forall_impl; [apply (si_open _ _ Hinv)|]. exact Hopen_old.
      * apply Forall_singleton. exists o. split; [|done].
        cbn [file]. by rewrite Hf, lookup_insert_eq.
Qed.

(** ** The loop of [setup_streaming] *)

Lemma setup_loop_steps (l : list string) (w : World) :
  ∃ w' outs,
    for_each l setup_symbol w = (Val tt, w') ∧ setup_steps l w w' outs ∧
    env w' = env w ∧ ib w' = ib w ∧ sig_handlers w' = sig_handlers w ∧
    updateEvent w' = updateEvent w ∧ dirs w' = dirs w.
Proof.
  revert w. induction l as [|sym l IH]; intros w.
  - exists w, []. split_and!; try done. constructor.
  - destruct (setup_symbol_step sym w)
      as (w1 & out & Hrun1 & Hstep & He & Hi & Hs & Hu & Hd).
    destruct (IH w1) as (w' & outs & Hrun & Hsteps & He' & Hi' & Hs' & Hu' & Hd').
    exists w', (out :: outs). cbn [for_each]. rewrite bind_eq, Hrun1.
    split_and!; try congruence. by econstructor.
Qed.

Lemma setup_steps_length l w w' outs :
  setup_steps l w w' outs → length outs = length l.
Proof. induction 1; cbn; congruence. Qed.

Lemma setup_steps_env l w w' outs :
  setup_steps l w w' outs → env w' = env w.
Proof. induction 1; congruence. Qed.

Lemma setup_steps_inv l w w' outs seen :
  setup_steps l w w' outs →
  setup_inv seen w → Forall plain seen → Forall plain l →
  NoDup l → (∀ s, s ∈ l → s ∉ seen) →
  setup_inv (reverse l ++ seen) w'.
Proof.
  intros Hsteps. revert seen.
  induction Hsteps as [w|sym l w w1 w' out outs Hstep He Hi Hsteps IH];
    intros seen Hinv Hps Hpl Hnd Hnew.
  - done.
  - apply Forall_cons in Hpl as [Hp Hpl]. apply NoDup_cons in Hnd as [Hsym Hnd].
    rewrite reverse_cons, <- app_assoc. cbn [app]. apply IH; try done.
    + eapply setup_inv_step; eauto. apply Hnew. apply elem_of_cons. by left.
    + by apply Forall_cons.
    + intros s Hs Hin. apply elem_of_cons in Hin as [->|Hin]; [done|].
      eapply Hnew; [|exact Hin]. apply elem_of_cons. by right.
Qed.

(** What one round prints, and what it does to the list of subscribed
    symbols. *)
Lemma setup_step_stdout sym w w' out :
  setup_step sym w w' out → stdout w' = stdout w ++ [report sym out].
Proof. by intros [msg new|msg path|msg rq path|path]. Qed.

Lemma setup_step_subscribed seen sym w w' out :
  setup_inv seen w → setup_step sym w w' out →
  subscribed w' = subscribed w ++ match out with
                                  | None => [sym]
                                  | Some _ => []
                                  end.
Proof.
  intros Hinv [msg new _ _ _ _ _ Hb _
              |msg path _ _ _ _ _ Hb _
              |msg rq path _ _ _ _ _ Hb _
              |path _ _ _ _ Hb _]; unfold subscribed;
    try (rewrite Hb; by rewrite app_nil_r).
  rewrite Hb, dict_set_fresh.
  - unfold dict_values. by rewrite !fmap_app.
  - intros Hin. pose proof (si_keys _ _ Hinv _ Hin). lia.
Qed.

(** The symbols of [l] whose round ended with a subscription. *)
Lemma setup_steps_stdout l w w' outs :
  setup_steps l w w' outs →
  stdout w' = stdout w ++ zip_with report l outs.
Proof.
  induction 1 as [w|sym l w w1 w' out outs Hstep He Hi Hsteps IH]; cbn.
  - by rewrite app_nil_r.
  - rewrite IH, (setup_step_stdout _ _ _ _ Hstep). by rewrite <- app_assoc.
Qed.

Lemma winners_cons sym l out outs :
  winners (sym :: l) (out :: outs) =
  match out with None => [sym] | Some _ => [] end ++ winners l outs.
Proof. unfold winners. cbn. by destruct out. Qed.

Lemma setup_steps_subscribed l w w' outs seen :
  setup_steps l w w' outs →
  setup_inv seen w → Forall plain seen → Forall plain l →
  NoDup l → (∀ s, s ∈ l → s ∉ seen) →
  subscribed w' = subscribed w ++ winners l outs.
Proof.
  intros Hsteps. revert seen.
  induction Hsteps as [w|sym l w w1 w' out outs Hstep He Hi Hsteps IH];
    intros seen Hinv Hps Hpl Hnd Hnew.
  - unfold winners. cbn. by rewrite app_nil_r.
  - apply Forall_cons in Hpl as [Hp Hpl]. apply NoDup_cons in Hnd as [Hsym Hnd].
    rewrite winners_cons, app_assoc.
    rewrite <- (setup_step_subscribed _ _ _ _ _ Hinv Hstep).
    apply (IH (sym :: seen)); try done.
    + eapply setup_inv_step; eauto. apply Hnew. apply elem_of_cons. by left.
    + by apply Forall_cons.
    + intros s Hs Hin. apply elem_of_cons in Hin as [->|Hin]; [done|].
      eapply Hnew; [|exact Hin]. apply elem_of_cons. by right.
Qed.


(** The calls of one round. *)
Lemma setup_step_trace sym w w' out :
  setup_step sym w w' out →
  ∃ seg, trace w' = trace w ++ seg ∧ round_of sym seg ∧
         (∀ s, (req_call s, None) ∈ seg ↔ s = sym ∧ out = None).
Proof.
  assert (Hreq : ∀ s s', req_call s = req_call s' → s = s').
  { intros s s' H. by injection H. }
  assert (Hhc : ∀ path o c o', (c, o') ∈ header_calls w path o →
                               c = CWriterow (next_id w) header).
  { intros path o c o'. unfold header_calls.
    destruct (file_content w path); [|by intros ?%elem_of_nil].
    intros [[= -> _]|?%elem_of_nil]%elem_of_cons; done. }
  intros [msg new [->| ->] Ht _ _ _ _ _
         |msg path _ Ht _ _ _ _ _
         |msg rq path Hrq Ht _ _ _ _ _
         |path Ht _ _ _ _ _]; (eexists; split; [exact Ht|]).
  - split; [exists (Some msg), []; split; [done|]; intros; apply not_elem_of_nil|].
    intros s. rewrite elem_of_cons, elem_of_nil. split; [|by intros [_ ?]].
    by intros [?|[]].
  - split; [eexists _, _; split; [done|]|].
    + intros s o'. rewrite elem_of_cons, elem_of_nil. by intros [?|[]].
    + intros s. rewrite !elem_of_cons, elem_of_nil. split; [|by intros [_ ?]].
      by intros [?|[?|[]]].
  - split; [eexists _, _; split; [done|]|].
    + intros s o'. rewrite !elem_of_cons, elem_of_nil. by intros [?|[?|[]]].
    + intros s. rewrite !elem_of_cons, elem_of_nil. split; [|by intros [_ ?]].
      by intros [?|[?|[?|[]]]].
  - cbn [app]. split; [eexists _, _; split; [done|]|].
    + intros s o'. rewrite elem_of_cons, elem_of_app.
      intros [?|[Hh|Hr]]; [done|by apply Hhc in Hh|].
      destruct Hrq as [->|[-> _]]; [|by apply elem_of_nil in Hr].
      apply elem_of_cons in Hr as [?|Hr]; [done|by apply elem_of_nil in Hr].
    + intros s. rewrite !elem_of_cons, elem_of_app. split; [|by intros [_ ?]].
      intros [?|[?|[Hh|Hr]]]; [done|done|by apply Hhc in Hh|].
      destruct Hrq as [->|[-> _]]; [|by apply elem_of_nil in Hr].
      apply elem_of_cons in Hr as [?|Hr]; [done|by apply elem_of_nil in Hr].
  - cbn [app]. split; [eexists _, _; split; [done|]|].
    + intros s o'. rewrite elem_of_cons, elem_of_app.
      intros [?|[Hh|Hr]]; [done|by apply Hhc in Hh|].
      apply elem_of_cons in Hr as [?|Hr]; [done|by apply elem_of_nil in Hr].
    + intros s. rewrite !elem_of_cons, elem_of_app. split.
      * intros [?|[?|[Hh|Hr]]]; [done|done|by apply Hhc in Hh|].
        apply elem_of_cons in Hr as [Heq|Hr]; [|by apply elem_of_nil in Hr].
        split; [|done]. by injection Heq.
      * intros [-> _]. right. right. right. apply elem_of_cons. by left.
Qed.

Lemma setup_steps_trace l w w' outs :
  setup_steps l w w' outs →
  ∃ segs, trace w' = trace w ++ concat segs ∧ Forall2 round_of l segs ∧
          (∀ s, (req_call s, None) ∈ concat segs ↔ s ∈ winners l outs).
Proof.
  induction 1 as [w|sym l w w1 w' out outs Hstep He Hi Hsteps IH].
  - exists []. cbn. rewrite app_nil_r. split_and!; [done|constructor|].
    intros s. unfold winners. cbn. split; intros H; by apply elem_of_nil in H.
  - destruct (setup_step_trace _ _ _ _ Hstep) as (seg & Ht & Hr & Hq).
    destruct IH as (segs & Ht' & Hrs & Hqs).
    exists (seg :: segs). cbn [concat]. split_and!.
    + by rewrite Ht', Ht, <- app_assoc.
    + by constructor.
    + intros s. rewrite elem_of_app, Hq, Hqs, winners_cons, elem_of_app.
      destruct out as [msg|].
      * rewrite elem_of_nil.
        split; [intros [[_ ?]|?]; [done|by right]|intros [[]|?]; by right].
      * rewrite elem_of_cons, elem_of_nil.
        split; [intros [[? _]|?]; [left; by left|by right]|].
        intros [[?|[]]|?]; [by left|by right].
Qed.

(** ** What [setup_streaming] establishes *)

Lemma fresh_setup_inv w : files w = ∅ → bars_map w = [] → setup_inv [] w.
Proof.
  intros Hf Hb. split.
  - intros f o. by rewrite Hf, lookup_empty.
  - rewrite Hb. intros h Hh. by apply elem_of_nil in Hh.
  - intros f o. by rewrite Hf, lookup_empty.
  - intros f1 f2 o1 o2. by rewrite Hf, lookup_empty.
  - split; unfold subscribed; rewrite Hb; cbn; constructor.
  - unfold subscribed. rewrite Hb. intros s Hs. by apply elem_of_nil in Hs.
  - rewrite Hb. constructor.
Qed.

(** Everything the later theorems need about a run of [setup_streaming]
    that starts with nothing opened and nothing subscribed. *)
Lemma setup_streaming_spec (w : World) :
  files w = ∅ → bars_map w = [] →
  ∃ w' outs segs,
    setup_streaming w = (Val tt, w') ∧
    setup_inv (reverse TICKERS) w' ∧
    env w' = env w ∧ ib w' = ib w ∧ sig_handlers w' = sig_handlers w ∧
    length outs = length TICKERS ∧
    stdout w' = stdout w ++ ["Setting up streaming for 92 tickers..."]
                         ++ zip_with report TICKERS outs ∧
    trace w' = trace w ++ concat segs ∧
    Forall2 round_of TICKERS segs ∧
    subscribed w' = winners TICKERS outs ∧
    (∀ s, (req_call s, None) ∈ concat segs ↔ s ∈ subscribed w').
Proof.
  intros Hf Hb. unfold setup_streaming, setup_streaming_for.
  rewrite bind_eq. unfold print at 1. unfold modify at 1. cbn beta iota.
  set (w0 := set_stdout _ w).
  destruct (setup_loop_steps TICKERS w0)
    as (w' & outs & Hrun & Hsteps & He & Hi & Hs & _ & _).
  pose proof (fresh_setup_inv w0 Hf Hb) as Hinv0.
  pose proof (setup_steps_inv _ _ _ _ [] Hsteps Hinv0) as Hinv.
  rewrite app_nil_r in Hinv.
  pose proof (setup_steps_subscribed _ _ _ _ [] Hsteps Hinv0) as Hsub.
  destruct (setup_steps_trace _ _ _ _ Hsteps) as (segs & Ht & Hr & Hq).
  exists w', outs, segs. split; [exact Hrun|].
  assert (Hno : ∀ s, s ∈ TICKERS → s ∉ []).
  { intros s _. apply not_elem_of_nil. }
  split_and!; try done.
  - apply Hinv; auto using TICKERS_plain, TICKERS_NoDup.
  - by eapply setup_steps_length.
  - rewrite (setup_steps_stdout _ _ _ _ Hsteps). subst w0. wsimpl.
    by rewrite <- app_assoc.
  - rewrite Hsub; auto using TICKERS_plain, TICKERS_NoDup.
    unfold subscribed at 1. subst w0. wsimpl. by rewrite Hb.
  - intros s. rewrite Hq, Hsub; auto using TICKERS_plain, TICKERS_NoDup.
    unfold subscribed at 1. subst w0. wsimpl. by rewrite Hb.
Qed.


(** ** The header row *)

Lemma header_ok_nil : header_ok [].
Proof. by left. Qed.



Lemma header_ok_prefix rows1 rows2 :
  header_ok (rows1 ++ rows2) → header_ok rows1.
Proof.
  intros [Hnil|[bars Hbars]].
  - apply app_eq_nil in Hnil as [-> _]. apply header_ok_nil.
  - destruct rows1 as [|r rows1]; [apply header_ok_nil|].
    cbn in Hbars. injection Hbars as -> Hrest.
    symmetry in Hrest. apply fmap_app_inv in Hrest as (b1 & b2 & -> & _ & _).
    right. by exists b1.
Qed.



Lemma run_inv_transfer p w w' :
  files w' = files w → disk w' = disk w → bars_map w' = bars_map w →
  run_inv p w → run_inv p w'.
Proof.
  intros Hf Hd Hb [[H1 H2 H3] [H4 H5]].
  assert (Hc : ∀ q, file_content w' q = file_content w q).
  { intros q. unfold file_content. by rewrite Hd. }
  split; split.
  - by rewrite Hc.
  - rewrite Hf. intros f o. rewrite Hc. apply H2.
  - rewrite Hf, Hb. intros ctx o. rewrite Hc. apply H3.
  - rewrite Hf. exact H4.
  - by rewrite Hb.
Qed.

Lemma writerow_eq wr r w :
  writerow wr r w =
  match file_pre (fileobj wr) w with
  | Some msg =>
      (Exn (Exception msg),
       set_trace (trace w ++ [(CWriterow (fileobj wr) r, Some msg)]) w)
  | None =>
      match fault (env w) (length (trace w)) (CWriterow (fileobj wr) r) with
      | Some msg =>
          (Exn (Exception msg),
           set_trace (trace w ++ [(CWriterow (fileobj wr) r, Some msg)]) w)
      | None =>
          (Val tt,
           set_files (alter (push_row r) (fileobj wr) (files w))
             (set_trace (trace w ++ [(CWriterow (fileobj wr) r, None)]) w))
      end
  end.
Proof.
  unfold writerow. unfold_m. wsimpl.
  destruct (file_pre _ _); [done|]. by destruct (fault _ _ _).
Qed.

Lemma flush_eq f w :
  flush f w =
  match file_pre f w with
  | Some msg =>
      (Exn (Exception msg), set_trace (trace w ++ [(CFlush f, Some msg)]) w)
  | None =>
      match fault (env w) (length (trace w)) (CFlush f) with
      | Some msg =>
          (Exn (Exception msg),
           set_trace (trace w ++ [(CFlush f, Some msg)]) w)
      | None =>
          (Val tt, drain f false (set_trace (trace w ++ [(CFlush f, None)]) w))
      end
  end.
Proof.
  unfold flush. unfold_m. wsimpl.
  destruct (file_pre _ _); [done|]. by destruct (fault _ _ _).
Qed.


(** The buffer of a file object moved to its file. *)
Lemma run_inv_drain p f b w :
  run_inv p w → run_inv p (drain f b w).
Proof.
  intros Hinv. unfold drain.
  destruct (files w !! f) as [o|] eqn:Hf; [|done].
  destruct (closed o) eqn:Hcl; [done|].
  destruct Hinv as [[H1 H2 H3] [H4 H5]].
  set (w' := set_files _ _).
  assert (Hcont : ∀ q, file_content w' q =
            if decide (q = fpath o) then file_content w q ++ buf o
            else file_content w q).
  { intros q. unfold file_content at 1. subst w'. wsimpl.
    case_decide as Hq; [subst q; by rewrite lookup_insert_eq|].
    by rewrite lookup_insert_ne. }
  assert (Hlk : ∀ g og, files w' !! g = Some og →
            (g = f ∧ og = {| fpath := fpath o; closed := b; buf := [] |}) ∨
            (g ≠ f ∧ files w !! g = Some og)).
  { intros g og. subst w'. wsimpl. destruct (decide (g = f)) as [->|Hg].
    - rewrite lookup_insert_eq. intros [= <-]. by left.
    - rewrite lookup_insert_ne by done. by right. }
  split; split.
  - rewrite Hcont. case_decide as Hp; [subst p|done].
    by apply (H2 f o).
  - intros g og Hg Hp Hc. rewrite Hcont.
    destruct (Hlk g og Hg) as [[-> ->]|[Hne Hg0]].
    + cbn [fpath buf] in *. subst p. rewrite decide_True, app_nil_r by done.
      by apply (H2 f o).
    + case_decide as Hq; [|by apply (H2 g og)].
      exfalso. apply Hne. apply (H4 g f og o); congruence.
  - intros c oc Hc Hfc Hp Hcl'. rewrite Hcont.
    destruct (Hlk (file c) oc Hfc) as [[Heq ->]|[Hne Hg0]].
    + cbn [fpath buf] in *. subst p. rewrite decide_True, app_nil_r by done.
      apply (H3 c o); [exact Hc|by rewrite Heq|done|done].
    + case_decide as Hq; [|by apply (H3 c oc)].
      exfalso. apply Hne. apply (H4 (file c) f oc o); congruence.
  - intros f1 f2 o1 o2 Hf1 Hf2 Hp.
    assert (Hpath : ∀ g og, files w' !! g = Some og →
                            ∃ og0, files w !! g = Some og0 ∧ fpath og0 = fpath og).
    { intros g og Hg. destruct (Hlk g og Hg) as [[-> ->]|[_ Hg0]];
        [by exists o|by exists og]. }
    destruct (Hpath f1 o1 Hf1) as (o1' & Hf1' & Hp1).
    destruct (Hpath f2 o2 Hf2) as (o2' & Hf2' & Hp2).
    apply (H4 f1 f2 o1' o2'); congruence.
  - exact H5.
Qed.

Global Instance inv_rel_preorder (I : World → Prop) : PreOrder (inv_rel I).
Proof. split; unfold inv_rel; [intros w; done|intros w1 w2 w3; eauto]. Qed.

Ltac run_inv_side :=
  unfold inv_rel; intros;
  first
    [ apply run_inv_drain; assumption
    | eapply run_inv_transfer; [..|eassumption]; reflexivity ].

Ltac keeps_run_inv := keeps_auto; try solve [run_inv_side].



Lemma register_callbacks_run_inv p :
  keeps (inv_rel (run_inv p)) register_callbacks.
Proof. unfold register_callbacks. keeps_run_inv. Qed.




(** The [try] around the event loop keeps whatever the loop, the handler
    and printing keep. *)
Lemma keeps_run_loop (R : relation World) `{!PreOrder R} events :
  keeps R (run events) → (∀ s, keeps R (shutdown s)) →
  (∀ v w, R w (set_stdout v w)) →
  keeps R (run_loop events).
Proof.
  intros Hrun Hsh Hout w. unfold run_loop. specialize (Hrun w).
  destruct (run events w) as [[[]|[msg| |c]] w1]; cbn [snd] in *; try done.
  - etrans; [exact Hrun|]. rewrite bind_eq. unfold print, modify.
    cbn beta iota. etrans; [apply Hout|]. apply Hsh.
  - etrans; [exact Hrun|]. apply Hsh.
Qed.


(** ** The header through setup *)






(** ** [main], step by step *)

Lemma world_eq w w' :
  env w = env w' → ib w = ib w' → bars_map w = bars_map w' →
  updateEvent w = updateEvent w' → sig_handlers w = sig_handlers w' →
  files w = files w' → next_id w = next_id w' → disk w = disk w' →
  dirs w = dirs w' → stdout w = stdout w' → trace w = trace w' →
  w = w'.
Proof. destruct w, w'; cbn. by intros -> -> -> -> -> -> -> -> -> -> ->. Qed.

Lemma connect_to_ib_eq w :
  connect_to_ib w =
  match fault (env w) (length (trace w)) (connect_call (env w)) with
  | Some msg => (Val false, connect_failed msg w)
  | None => (Val true, connect_done w)
  end.
Proof.
  unfold connect_to_ib, try_except, ib_connect. rewrite bind_eq.
  unfold modify at 1. cbn beta iota. rewrite bind_eq. unfold gets at 1.
  cbn beta iota. rewrite bind_eq, bind_eq. unfold gets at 1. cbn beta iota.
  wsimpl. rewrite bind_eq, call_eq. wsimpl. fold (connect_call (env w)).
  destruct (fault _ _ _) as [msg|]; [reflexivity|reflexivity].
Qed.

Lemma setup_output_directory_eq w :
  setup_output_directory w =
  match fault (env w) (length (trace w)) (CMakedirs (OUTPUT_DIR (env w))) with
  | Some msg => (Val false, makedirs_failed msg w)
  | None => (Val true, makedirs_done w)
  end.
Proof.
  unfold setup_output_directory, try_except. rewrite bind_eq.
  unfold gets at 1. cbn beta iota. rewrite bind_eq, call_eq.
  destruct (fault _ _ _) as [msg|]; reflexivity.
Qed.

Lemma register_callbacks_eq w :
  register_callbacks w =
  (Val tt, set_updateEvent (updateEvent w ++ dict_keys (bars_map w)) w).
Proof.
  unfold register_callbacks. rewrite bind_eq. unfold gets at 1.
  cbn beta iota.
  assert (Hloop : ∀ l w0,
            for_each l (λ bars, modify (λ w1, set_updateEvent
                                                (updateEvent w1 ++ [bars]) w1)) w0 =
            (Val tt, set_updateEvent (updateEvent w0 ++ l) w0)).
  { induction l as [|h l IH]; intros w0; cbn [for_each].
    - unfold ret. f_equal. apply world_eq; wsimpl; try reflexivity.
      by rewrite app_nil_r.
    - rewrite bind_eq. unfold modify at 1. cbn beta iota. rewrite IH.
      f_equal. apply world_eq; wsimpl; try reflexivity.
      by rewrite <- app_assoc. }
  apply Hloop.
Qed.


(** [main] as the chain of its stages. *)
Lemma main_eq events w :
  main events w =
  match connect_to_ib (prelude w) with
  | (Val true, w1) =>
      match setup_output_directory w1 with
      | (Val true, w2) =>
          match setup_streaming w2 with
          | (Val _, w3) =>
              match bars_map w3 with
              | [] =>
                  (Exn (SystemExit 1),
                   set_stdout
                     (stdout w3 ++ ["No successful streaming setups. Exiting."])
                     w3)
              | _ :: _ => run_loop events (streaming w3)
              end
          | (Exn e, w3) => (Exn e, w3)
          end
      | (Val false, w2) => (Exn (SystemExit 1), w2)
      | (Exn e, w2) => (Exn e, w2)
      end
  | (Val false, w1) => (Exn (SystemExit 1), w1)
  | (Exn e, w1) => (Exn e, w1)
  end.
Proof.
  unfold main.
  do 3 (rewrite bind_eq; unfold print at 1; unfold modify at 1; cbn beta iota).
  rewrite bind_eq. unfold gets at 1. cbn beta iota.
  do 2 (rewrite bind_eq; unfold print at 1; unfold modify at 1; cbn beta iota).
  do 2 (rewrite bind_eq; unfold signal_signal at 1; unfold modify at 1;
        cbn beta iota).
  rewrite bind_eq.
  match goal with
  | |- context [connect_to_ib ?w0] =>
      replace w0 with (prelude w)
  end.
  2:{ apply world_eq; unfold prelude; wsimpl; try reflexivity.
      by rewrite <- !app_assoc. }
  destruct (connect_to_ib (prelude w)) as [[[|]|e] w1]; cbn [negb]; try done.
  rewrite bind_eq.
  destruct (setup_output_directory w1) as [[[|]|e] w2]; cbn [negb]; try done.
  rewrite bind_eq.
  destruct (setup_streaming w2) as [[[]|e] w3]; [|done].
  rewrite bind_eq. unfold gets at 1. cbn beta iota.
  destruct (bars_map w3) as [|hc m] eqn:Hm; [done|].
  rewrite bind_eq, register_callbacks_eq.
  do 3 (rewrite bind_eq; unfold print at 1; unfold modify at 1; cbn beta iota).
  f_equal. apply world_eq; unfold streaming; wsimpl; try reflexivity.
  rewrite Hm. by rewrite <- !app_assoc.
Qed.

(** ** The event loop and the exit status *)

Lemma safe_gets {A} (f : World → A) : safe (gets f).
Proof. intros w. by eexists. Qed.

Lemma emit_safe bars flag : safe (emit bars flag).
Proof.
  unfold emit. apply safe_bind; [apply safe_gets|]. intros ls.
  apply safe_for_each. intros _. apply on_bar_safe.
Qed.

Lemma on_bar_keeps_handlers bars flag :
  keeps (same sig_handlers) (on_bar bars flag).
Proof.
  unfold on_bar, on_bar_body, bars_map_getitem, last_item, writerow, flush.
  keeps_field.
Qed.

Lemma emit_keeps_handlers bars flag :
  keeps (same sig_handlers) (emit bars flag).
Proof.
  unfold emit. apply keeps_bind; [apply _|apply keeps_gets; apply _|].
  intros ls. apply keeps_for_each; [apply _|]. intros _.
  apply on_bar_keeps_handlers.
Qed.

Lemma handler_installed s hs :
  s ∈ hs → existsb (Signal_eqb s) hs = true.
Proof.
  induction hs as [|h hs IH]; [by intros ?%elem_of_nil|].
  intros [->|Hin]%elem_of_cons; cbn.
  - by destruct h.
  - rewrite IH by done. by destruct (Signal_eqb s h).
Qed.

Lemma deliver_signal_eq s w :
  s ∈ sig_handlers w → deliver_signal s w = shutdown s w.
Proof.
  intros Hin. unfold deliver_signal. rewrite bind_eq. unfold gets at 1.
  cbn beta iota. by rewrite handler_installed.
Qed.

(** With both handlers installed, [ib.run()] can end in four ways only. *)
Lemma run_result events w :
  SIGINT ∈ sig_handlers w → SIGTERM ∈ sig_handlers w →
  match (run events w).1 with
  | Val _ | Exn KeyboardInterrupt | Exn (Exception _) => True
  | Exn (SystemExit code) => code = 0
  end.
Proof.
  revert w. induction events as [|[bars flag|s|msg|] rest IH]; intros w Hi Ht;
    cbn [run]; try done.
  - rewrite bind_eq. destruct (emit_safe bars flag w) as [[] Hval].
    pose proof (emit_keeps_handlers bars flag w) as Hh. unfold same in Hh.
    destruct (emit bars flag w) as [r w1]. cbn [fst snd] in *. subst r.
    apply IH; by rewrite Hh.
  - rewrite bind_eq, deliver_signal_eq by (by destruct s).
    destruct (shutdown_spec s w) as (w' & closes & disc & -> & _). done.
Qed.

Lemma run_loop_status events w :
  SIGINT ∈ sig_handlers w → SIGTERM ∈ sig_handlers w →
  exit_status (run_loop events w).1 = 0.
Proof.
  intros Hi Ht. pose proof (run_result events w Hi Ht) as Hr.
  unfold run_loop. destruct (run events w) as [[[]|[msg| |c]] w1];
    cbn [fst] in *.
  - done.
  - rewrite bind_eq. unfold print at 1. unfold modify at 1. cbn beta iota.
    destruct (shutdown_spec SIGTERM
                (set_stdout (stdout w1 ++ ["Unexpected error: " +:+ msg]) w1))
      as (w' & closes & disc & -> & _). done.
  - destruct (shutdown_spec SIGINT w1) as (w' & closes & disc & -> & _). done.
  - by subst c.
Qed.

(** A signal that arrives after bars only is a graceful shutdown. *)
Lemma run_graceful pre s rest w :
  Forall is_bar pre →
  SIGINT ∈ sig_handlers w → SIGTERM ∈ sig_handlers w →
  ∃ w', run (pre ++ EvSignal s :: rest) w = (Exn (SystemExit 0), w') ∧
        last (stdout w') = Some "Shutdown complete.".
Proof.
  intros Hpre. revert w.
  induction Hpre as [|[bars flag|s'|msg|] pre Hbar Hpre IH]; intros w Hi Ht;
    try done.
  - cbn [app run]. rewrite bind_eq, deliver_signal_eq by (by destruct s).
    destruct (shutdown_spec s w)
      as (w' & closes & disc & -> & _ & _ & _ & _ & _ & _ & Hout).
    by exists w'.
  - cbn [app run]. rewrite bind_eq. destruct (emit_safe bars flag w) as [[] Hval].
    pose proof (emit_keeps_handlers bars flag w) as Hh. unfold same in Hh.
    destruct (emit bars flag w) as [r w1]. cbn [fst snd] in *. subst r.
    apply IH; by rewrite Hh.
Qed.

Lemma run_loop_graceful pre s rest w :
  Forall is_bar pre →
  SIGINT ∈ sig_handlers w → SIGTERM ∈ sig_handlers w →
  ∃ w', run_loop (pre ++ EvSignal s :: rest) w = (Exn (SystemExit 0), w') ∧
        last (stdout w') = Some "Shutdown complete.".
Proof.
  intros Hpre Hi Ht.
  destruct (run_graceful pre s rest w Hpre Hi Ht) as (w' & Hrun & Hout).
  exists w'. unfold run_loop. by rewrite Hrun.
Qed.

Lemma run_loop_keeps_bars_map events : keeps (same bars_map) (run_loop events).
Proof.
  apply keeps_run_loop; [apply _|apply run_keeps_bars_map| |done].
  apply shutdown_keeps_bars_map.
Qed.

(** ** Files only grow *)

Global Instance disk_grows_preorder : PreOrder disk_grows.
Proof.
  split.
  - intros w p. done.
  - intros w1 w2 w3 H12 H23 p. etrans; [apply H12|apply H23].
Qed.














(** ** Claims about subscription setup *)






(** ** Claims about the two handlers *)

Lemma two_symbols_wf flt :
  bars_map (two_symbols flt) =
    [(1%nat, {| symbol := "AAPL"; writer := csv_writer 0; file := 0 |});
     (3%nat, {| symbol := "MSFT"; writer := csv_writer 2; file := 2 |})] →
  wf_map (two_symbols flt).
Proof.
  intros Hb.
  assert (Hinv : setup_inv (reverse ["AAPL"; "MSFT"]) (two_symbols flt)).
  { unfold two_symbols, setup_streaming_for. rewrite bind_eq.
    unfold print at 1. unfold modify at 1. cbn beta iota.
    set (w0 := set_stdout _ _).
    destruct (setup_loop_steps ["AAPL"; "MSFT"] w0)
      as (w' & outs & Hrun & Hsteps & _).
    rewrite Hrun. cbn [snd].
    pose proof (setup_steps_inv _ _ _ _ [] Hsteps (fresh_setup_inv w0 eq_refl eq_refl))
      as Hinv.
    rewrite app_nil_r in Hinv. apply Hinv.
    - constructor.
    - by repeat constructor.
    - apply (bool_decide_unpack _). by vm_compute.
    - intros s _. apply not_elem_of_nil. }
  apply Hinv.
Qed.





(** C3: [on_bar] always returns; nothing raised in its [try] block gets
    out.  What the block can raise is an [Exception] (a missing key, an
    empty bar sequence, a failed write or flush); it is caught, and one
    line with its text is printed.  The mapping is never changed.  With a
    mapping as [setup_streaming] builds it, a call for one subscription,
    failing or not, leaves the file object, the file and the resource of
    every other subscription exactly as they were, so that the next bar of
    any other symbol is appended as usual. *)
Theorem on_bar_contains_its_errors (bars : RealTimeBarList) (flag : bool)
    (w : World) :
  ∃ w',
    on_bar bars flag w = (Val tt, w') ∧
    bars_map w' = bars_map w ∧
    (flag = true →
     match on_bar_body bars w with
     | (Val _, w1) => w' = w1
     | (Exn (Exception msg), w1) =>
         w' = set_stdout (stdout w1 ++ ["Error processing bar data: " +:+ msg]) w1 ∧
         stdout w' = stdout w ++ ["Error processing bar data: " +:+ msg]
     | (Exn _, _) => False
     end) ∧
    (wf_map w →
     ∀ h ctx, dict_get h (bars_map w) = Some ctx → h ≠ ident bars →
       files w' !! file ctx = files w !! file ctx ∧
       (∀ p, path_of w (file ctx) = Some p → disk w' !! p = disk w !! p) ∧
       resource w' (file ctx) = resource w (file ctx) ∧
       (∀ bars2 bar2,
          Forall (λ c, is_open w (file c)) (dict_values (bars_map w)) →
          ident bars2 = h → last (items bars2) = Some bar2 →
          fault (env w') (length (trace w'))
            (CWriterow (file ctx) (bar_row bar2)) = None →
          fault (env w') (S (length (trace w'))) (CFlush (file ctx)) = None →
          ∃ w'', on_bar bars2 true w' = (Val tt, w'') ∧
                 resource w'' (file ctx) =
                 resource w (file ctx) ++ [bar_row bar2])).
Proof.
  pose proof (on_bar_frame bars flag w) as Hfr. cbn zeta in Hfr.
  destruct (on_bar_safe bars flag w) as [[] Hval].
  destruct (on_bar bars flag w) as [r w'] eqn:Hrun. cbn [fst snd] in *.
  subst r. destruct Hfr as (He & Hi & Hb & Hp & Hc & Hf & Hd).
  exists w'. split; [done|]. split; [done|]. split.
  { intros ->. pose proof (on_bar_logs bars w) as Hlog.
    pose proof (on_bar_body_quiet bars w) as Hq. unfold same in Hq.
    destruct (on_bar_body bars w) as [[[]|[msg| |c]] w1]; cbn [snd] in *;
      try done.
    - congruence.
    - rewrite Hrun in Hlog. injection Hlog as ->. split; [done|].
      wsimpl. by rewrite Hq. }
  intros Hwf h ctx Hctx Hne.
  assert (Hfile : files w' !! file ctx = files w !! file ctx).
  { apply Hf. intros ctx0 Hctx0.
    destruct (wf_map_apart w h (ident bars) ctx ctx0 Hwf Hctx Hctx0 Hne)
      as (_ & Hfne & _).
    destruct (wf_map_entry _ _ _ Hwf Hctx0) as [Hwr _].
    split; congruence. }
  assert (Hdisk : ∀ p, path_of w (file ctx) = Some p →
                       disk w' !! p = disk w !! p).
  { intros p Hpp. apply Hd. intros ctx0 Hctx0.
    destruct (wf_map_apart w h (ident bars) ctx ctx0 Hwf Hctx Hctx0 Hne)
      as (_ & _ & Hpne).
    congruence. }
  assert (Hres : resource w' (file ctx) = resource w (file ctx)).
  { by apply resource_frame. }
  split_and!; try done.
  intros bars2 bar2 Hopen Hid Hbar2 Hw2 Hfl2.
  assert (Hwf' : wf_map w') by (by eapply wf_map_transfer).
  assert (Hctx' : dict_get (ident bars2) (bars_map w') = Some ctx).
  { by rewrite Hid, Hb. }
  assert (Hop : is_open w' (file ctx)).
  { rewrite Forall_forall in Hopen.
    destruct (Hopen ctx (dict_get_value _ _ _ Hctx)) as (o & Ho & Hcl).
    exists o. split; [by rewrite Hfile|done]. }
  destruct (on_bar_delivers bars2 ctx bar2 w' Hwf' Hctx' Hbar2 Hop Hw2 Hfl2)
    as (w'' & Hrun2 & _ & _ & _ & _ & _ & _ & Hres2 & _).
  exists w''. split; [done|]. by rewrite Hres2, Hres.
Qed.

Lemma on_bar_contains_its_errors_witness :
  let w := two_symbols disk_full_later in
  wf_map w ∧
  ∃ w', on_bar (delivery 1 [bar_a]) true w = (Val tt, w') ∧
        bars_map w' = bars_map w ∧
        resource w' 2 = resource w 2.
Proof.
  cbn zeta.
  assert (Hb : bars_map (two_symbols disk_full_later) =
    [(1%nat, {| symbol := "AAPL"; writer := csv_writer 0; file := 0 |});
     (3%nat, {| symbol := "MSFT"; writer := csv_writer 2; file := 2 |})]).
  { by vm_compute. }
  assert (Hwf : wf_map (two_symbols disk_full_later)).
  { apply two_symbols_wf. exact Hb. }
  split; [exact Hwf|].
  destruct (on_bar_contains_its_errors (delivery 1 [bar_a]) true
              (two_symbols disk_full_later))
    as (w' & Hrun & Hmap & _ & Hothers).
  exists w'. split; [exact Hrun|]. split; [exact Hmap|].
  apply (Hothers Hwf 3%nat
           {| symbol := "MSFT"; writer := csv_writer 2; file := 2 |}).
  - by rewrite Hb.
  - done.
Defined.

(** C5: for every state, [shutdown] makes one close attempt per entry of the
    mapping, in the order of the mapping and whatever the earlier attempts
    did; every file whose close did not raise is closed afterwards; then,
    if there is a client object, one disconnect attempt follows, and a
    disconnect that did not raise leaves the client disconnected; nothing
    raised by a close or by the disconnect gets out; and the handler ends
    with [sys.exit(0)]: the process status is 0. *)
Theorem shutdown_closes_everything_and_exits_0 (s : Signal) (w : World) :
  ∃ w' closes disc,
    shutdown s w = (Exn (SystemExit 0), w') ∧
    exit_status (shutdown s w).1 = 0 ∧
    trace w' = trace w ++ closes ++ disc ∧
    closes.*1 = (λ ctx, CClose (file ctx)) <$> dict_values (bars_map w) ∧
    disc.*1 = match ib w with Some _ => [CDisconnect] | None => [] end ∧
    (∀ f o, (CClose f, None) ∈ closes → files w' !! f = Some o →
            closed o = true) ∧
    ((CDisconnect, None) ∈ disc → ib w' = Some {| connected := false |}) ∧
    last (stdout w') = Some "Shutdown complete.".
Proof.
  destruct (shutdown_spec s w)
    as (w' & closes & disc & Hrun & Ht & Hc & Hd & Hcl & Hdis & _ & Hout).
  exists w', closes, disc. rewrite Hrun. by split_and!.
Qed.



(** ** Claims about the whole program *)

(** C6: started as a new process, [main] ends with status 1 when the
    connection attempt raises, and then it has touched neither the output
    directory nor any file: the connection attempt is the only external
    call made.  It ends with status 1 as well when the directory cannot be
    made, and when setup leaves the mapping empty.  With at least one
    subscription the status is 0 however the event loop ends; in
    particular a signal arriving after any number of bars runs [shutdown],
    which prints that the shutdown is complete and exits with 0. *)
Theorem main_exit_status (e : Env) (d : gmap string (list Row))
    (events : list Event) :
  let r := main events (start e d) in
  (∀ msg, fault e 0%nat (connect_call e) = Some msg →
     r.1 = Exn (SystemExit 1) ∧ exit_status r.1 = 1 ∧
     disk r.2 = d ∧ dirs r.2 = ∅ ∧ files r.2 = ∅ ∧
     trace r.2 = [(connect_call e, Some msg)]) ∧
  (fault e 0%nat (connect_call e) = None →
     (∀ msg, fault e 1%nat (CMakedirs (OUTPUT_DIR e)) = Some msg →
        r.1 = Exn (SystemExit 1)) ∧
     (fault e 1%nat (CMakedirs (OUTPUT_DIR e)) = None →
        (bars_map r.2 = [] → r.1 = Exn (SystemExit 1) ∧ exit_status r.1 = 1) ∧
        (bars_map r.2 ≠ [] →
           exit_status r.1 = 0 ∧
           ∀ pre s rest, events = pre ++ EvSignal s :: rest →
             Forall is_bar pre →
             r.1 = Exn (SystemExit 0) ∧
             last (stdout r.2) = Some "Shutdown complete."))).
Proof.
  cbn zeta. rewrite main_eq, connect_to_ib_eq.
  change (fault (env (prelude (start e d)))
            (length (trace (prelude (start e d))))
            (connect_call (env (prelude (start e d)))))
    with (fault e 0%nat (connect_call e)).
  destruct (fault e 0%nat (connect_call e)) as [msg0|] eqn:Hconn.
  { split; [|done]. intros msg [= <-]. by split_and!. }
  split; [done|]. intros _.
  rewrite setup_output_directory_eq.
  set (w1 := connect_done (prelude (start e d))).
  change (fault (env w1) (length (trace w1)) (CMakedirs (OUTPUT_DIR (env w1))))
    with (fault e 1%nat (CMakedirs (OUTPUT_DIR e))).
  destruct (fault e 1%nat (CMakedirs (OUTPUT_DIR e))) as [msg1|] eqn:Hdir.
  { split; [|done]. by intros msg _. }
  split; [done|]. intros _.
  set (w2 := makedirs_done w1).
  destruct (setup_streaming_spec w2 eq_refl eq_refl)
    as (w3 & outs & segs & Hrun & _ & _ & _ & Hsig & _).
  rewrite Hrun.
  assert (Hint : SIGINT ∈ sig_handlers (streaming w3)).
  { unfold streaming. wsimpl. rewrite Hsig. subst w2 w1. cbn.
    apply elem_of_cons. right. apply elem_of_cons. by left. }
  assert (Hterm : SIGTERM ∈ sig_handlers (streaming w3)).
  { unfold streaming. wsimpl. rewrite Hsig. subst w2 w1. cbn.
    apply elem_of_cons. by left. }
  pose proof (run_loop_keeps_bars_map events (streaming w3)) as Hmap.
  unfold same in Hmap. change (bars_map (streaming w3)) with (bars_map w3) in Hmap.
  destruct (bars_map w3) as [|hc m] eqn:Hm.
  { split; [done|]. cbn [snd]. wsimpl. by rewrite Hm. }
  split.
  { rewrite Hmap. done. }
  intros _. split; [by apply run_loop_status|].
  intros pre s rest -> Hpre.
  destruct (run_loop_graceful pre s rest (streaming w3) Hpre Hint Hterm)
    as (w' & -> & Hout).
  done.
Qed.

Lemma main_exit_status_witness :
  (main [] (start (env_of gateway_down) ∅)).1 = Exn (SystemExit 1) ∧
  disk (main [] (start (env_of gateway_down) ∅)).2 = ∅ ∧
  dirs (main [] (start (env_of gateway_down) ∅)).2 = ∅.
Proof.
  destruct (main_exit_status (env_of gateway_down) ∅ []) as [Hdown _].
  destruct (Hdown "Connection refused" eq_refl) as (Hr & _ & Hd & Hdirs & _).
  split; [exact Hr|]. split; [exact Hd|exact Hdirs].
Defined.

(** ** The header row, across runs *)











(** * Further properties of the script *)

(** ** Connecting *)

(** X1: [connect_to_ib] never raises and returns [True] exactly when the
    connect call does not raise.  Either way [ib] is a client object
    afterwards, since it is assigned before the connection attempt, and
    nothing else of the state is touched but the output.  As a consequence
    [shutdown], run after a failed connection attempt, does make a
    disconnect call. *)
Theorem connect_to_ib_outcome (w : World) :
  ∃ b w',
    connect_to_ib w = (Val b, w') ∧
    (b = true ↔
     fault (env w) (length (trace w)) (connect_call (env w)) = None) ∧
    ib w' = Some {| connected := b |} ∧
    trace w' = trace w ++
               [(connect_call (env w),
                 fault (env w) (length (trace w)) (connect_call (env w)))] ∧
    files w' = files w ∧ disk w' = disk w ∧ dirs w' = dirs w ∧
    bars_map w' = bars_map w ∧
    (b = false →
     ∀ s, ∃ w'' closes o,
       shutdown s w' = (Exn (SystemExit 0), w'') ∧
       trace w'' = trace w' ++ closes ++ [(CDisconnect, o)] ∧
       closes.*1 = (λ ctx, CClose (file ctx)) <$> dict_values (bars_map w)).
Proof.
  rewrite connect_to_ib_eq.
  destruct (fault (env w) (length (trace w)) (connect_call (env w)))
    as [msg|] eqn:Hf.
  - exists false, (connect_failed msg w). split_and!; try done.
    intros _ s.
    destruct (shutdown_spec s (connect_failed msg w))
      as (w'' & closes & disc & Hrun & Ht & Hc & Hd & _).
    change (ib (connect_failed msg w)) with (Some {| connected := false |}) in Hd.
    destruct disc as [|[c o] [|? ?]]; try done. injection Hd as ->.
    by exists w'', closes, o.
  - exists true, (connect_done w). split_and!; done.
Qed.

(** ** The bar handler at its edges *)



(** X3: when the file of the entry is closed, [on_bar] writes nothing: the
    write raises, no flush is attempted, every file and every file object
    stays as it was, and the error is printed. *)
Theorem on_bar_on_closed_file (bars : RealTimeBarList) (ctx : Ctx)
    (bar : RealTimeBar) (o : FileObj) (w : World) :
  dict_get (ident bars) (bars_map w) = Some ctx →
  last (items bars) = Some bar →
  files w !! fileobj (writer ctx) = Some o → closed o = true →
  on_bar bars true w =
  (Val tt,
   set_stdout (stdout w ++ ["Error processing bar data: " +:+ closed_file_error])
     (set_trace (trace w ++ [(CWriterow (fileobj (writer ctx)) (bar_row bar),
                              Some closed_file_error)]) w)).
Proof.
  intros Hctx Hbar Ho Hcl.
  pose proof (on_bar_logs bars w) as Hlog.
  rewrite on_bar_body_eq, Hctx, Hbar, bind_eq, writerow_eq in Hlog.
  unfold file_pre in Hlog. by rewrite Ho, Hcl in Hlog.
Qed.

Lemma on_bar_on_closed_file_witness :
  dict_get (ident (delivery 1 [bar_a])) (bars_map aapl_closed) =
    Some {| symbol := "AAPL"; writer := csv_writer 0; file := 0 |} ∧
  last (items (delivery 1 [bar_a])) = Some bar_a ∧
  files aapl_closed !! 0%nat =
    Some {| fpath := "ibkr_candles/AAPL.csv"; closed := true; buf := [] |} ∧
  on_bar (delivery 1 [bar_a]) true aapl_closed =
    (Val tt,
     set_stdout (stdout aapl_closed ++
                 ["Error processing bar data: " +:+ closed_file_error])
       (set_trace (trace aapl_closed ++
                   [(CWriterow 0 (bar_row bar_a), Some closed_file_error)])
          aapl_closed)).
Proof.
  assert (H1 : dict_get (ident (delivery 1 [bar_a])) (bars_map aapl_closed) =
    Some {| symbol := "AAPL"; writer := csv_writer 0; file := 0 |}).
  { by vm_compute. }
  assert (H2 : files aapl_closed !! 0%nat =
    Some {| fpath := "ibkr_candles/AAPL.csv"; closed := true; buf := [] |}).
  { by vm_compute. }
  split; [exact H1|]. split; [reflexivity|]. split; [exact H2|].
  exact (on_bar_on_closed_file (delivery 1 [bar_a])
           {| symbol := "AAPL"; writer := csv_writer 0; file := 0 |} bar_a
           {| fpath := "ibkr_candles/AAPL.csv"; closed := true; buf := [] |}
           aapl_closed H1 eq_refl H2 eq_refl).
Defined.

(** ** Registering the callbacks *)

Lemma filter_eq_NoDup (h : nat) (l : list nat) :
  NoDup l →
  filter (λ x, x = h) l = if decide (h ∈ l) then [h] else [].
Proof.
  induction 1 as [|x l Hx Hnd IH]; [done|].
  destruct (decide (x = h)) as [->|Hne].
  - rewrite filter_cons_True by done. rewrite IH.
    rewrite decide_False by done. rewrite decide_True; [done|].
    apply elem_of_cons. by left.
  - rewrite filter_cons_False by done. rewrite IH.
    destruct (decide (h ∈ l)) as [Hin|Hin].
    + rewrite decide_True; [done|]. apply elem_of_cons. by right.
    + rewrite decide_False; [done|]. intros [?|?]%elem_of_cons; by subst.
Qed.

(** X4: [register_callbacks] hooks [on_bar] to every subscription of the
    mapping, in the order of the mapping, and to nothing else.  Starting
    with no listener and a mapping with distinct keys, an update of a
    subscription of the mapping then runs [on_bar] exactly once, and an
    update of any other bar list runs nothing. *)
Theorem register_callbacks_dispatch (w : World) :
  NoDup (dict_keys (bars_map w)) → updateEvent w = [] →
  ∃ w',
    register_callbacks w = (Val tt, w') ∧
    updateEvent w' = dict_keys (bars_map w) ∧
    bars_map w' = bars_map w ∧ files w' = files w ∧ disk w' = disk w ∧
    (∀ bars flag, ident bars ∈ dict_keys (bars_map w) →
                  emit bars flag w' = on_bar bars flag w') ∧
    (∀ bars flag, ident bars ∉ dict_keys (bars_map w) →
                  emit bars flag w' = (Val tt, w')).
Proof.
  intros Hnd Hno. rewrite register_callbacks_eq. rewrite Hno. cbn [app].
  eexists. split; [reflexivity|]. split_and!; try done.
  - intros bars flag Hin. unfold emit. rewrite bind_eq. unfold gets at 1.
    cbn beta iota. wsimpl. rewrite filter_eq_NoDup, decide_True by done.
    cbn [for_each]. rewrite bind_eq.
    destruct (on_bar_safe bars flag
                (set_updateEvent (dict_keys (bars_map w)) w)) as [[] Hval].
    destruct (on_bar bars flag _) as [r w1]. cbn [fst] in Hval. by subst r.
  - intros bars flag Hin. unfold emit. rewrite bind_eq. unfold gets at 1.
    cbn beta iota. wsimpl. by rewrite filter_eq_NoDup, decide_False by done.
Qed.

Lemma register_callbacks_dispatch_witness :
  NoDup (dict_keys (bars_map (two_symbols no_fault))) ∧
  updateEvent (two_symbols no_fault) = [] ∧
  ∃ w', register_callbacks (two_symbols no_fault) = (Val tt, w') ∧
        updateEvent w' = dict_keys (bars_map (two_symbols no_fault)).
Proof.
  assert (Hb : bars_map (two_symbols no_fault) =
    [(1%nat, {| symbol := "AAPL"; writer := csv_writer 0; file := 0 |});
     (3%nat, {| symbol := "MSFT"; writer := csv_writer 2; file := 2 |})]).
  { by vm_compute. }
  assert (Hnd : NoDup (dict_keys (bars_map (two_symbols no_fault)))).
  { apply (wf_keys _ (two_symbols_wf no_fault Hb)). }
  assert (Hno : updateEvent (two_symbols no_fault) = []) by by vm_compute.
  split; [exact Hnd|]. split; [exact Hno|].
  destruct (register_callbacks_dispatch (two_symbols no_fault) Hnd Hno)
    as (w' & Hrun & Hup & _).
  exists w'. split; [exact Hrun|exact Hup].
Defined.

(** ** What shutdown does to the files *)

Lemma drain_path f b w g : path_of (drain f b w) g = path_of w g.
Proof.
  unfold path_of. rewrite drain_files. case_decide; [subst g|done].
  destruct (files w !! f) as [o|]; [|done]. by destruct (closed o).
Qed.

Lemma drain_content f b w p :
  path_of w f ≠ Some p → file_content (drain f b w) p = file_content w p.
Proof.
  intros Hp. unfold drain, path_of in *.
  destruct (files w !! f) as [o|]; [|done].
  destruct (closed o); [done|]. unfold file_content. wsimpl.
  rewrite lookup_insert_ne; [done|]. intros <-. by apply Hp.
Qed.

Lemma drain_flushes f w o :
  files w !! f = Some o → closed o = false →
  files (drain f true w) !! f =
    Some {| fpath := fpath o; closed := true; buf := [] |} ∧
  file_content (drain f true w) (fpath o) = file_content w (fpath o) ++ buf o.
Proof.
  intros Hf Hcl. split.
  - by rewrite drain_files, decide_True, Hf, Hcl.
  - unfold drain. rewrite Hf, Hcl. unfold file_content at 1. wsimpl.
    by rewrite lookup_insert_eq.
Qed.

(** The loop of [shutdown] when no close raises and the files are distinct:
    each open file ends closed, with what it buffered at the end of its
    file. *)
Lemma close_loop_flushes (l : list Ctx) (w : World) :
  close_reliable w →
  NoDup ((λ c, path_of w (file c)) <$> l) →
  Forall (λ c, is_Some (files w !! file c)) l →
  ∃ w',
    for_each l (λ ctx, try_pass (file_close (file ctx))) w = (Val tt, w') ∧
    (∀ g, path_of w' g = path_of w g) ∧
    (∀ g, (∀ c, c ∈ l → file c ≠ g) → files w' !! g = files w !! g) ∧
    (∀ p, (∀ c, c ∈ l → path_of w (file c) ≠ Some p) →
          file_content w' p = file_content w p) ∧
    (∀ c o, c ∈ l → files w !! file c = Some o → closed o = false →
       files w' !! file c =
         Some {| fpath := fpath o; closed := true; buf := [] |} ∧
       file_content w' (fpath o) = file_content w (fpath o) ++ buf o).
Proof.
  revert w. induction l as [|c l IH]; intros w Hrel Hnd Hex.
  - exists w. split_and!; try done. intros c o Hin. by apply elem_of_nil in Hin.
  - cbn [for_each]. rewrite bind_eq, try_close_eq, Hrel.
    set (w1 := drain (file c) true _).
    assert (Hp1 : ∀ g, path_of w1 g = path_of w g).
    { intros g. subst w1. by rewrite drain_path. }
    assert (Hf1 : ∀ g, g ≠ file c → files w1 !! g = files w !! g).
    { intros g Hg. subst w1. by rewrite drain_files, decide_False. }
    assert (Hc1 : ∀ p, path_of w (file c) ≠ Some p →
                       file_content w1 p = file_content w p).
    { intros p Hp. subst w1. by rewrite drain_content. }
    rewrite fmap_cons in Hnd. apply NoDup_cons in Hnd as [Hhead Hnd].
    apply Forall_cons in Hex as [[oc Hoc] Hex].
    assert (Hapart : ∀ c', c' ∈ l →
              file c' ≠ file c ∧ path_of w (file c') ≠ path_of w (file c)).
    { intros c' Hin.
      assert (Hne : path_of w (file c') ≠ path_of w (file c)).
      { intros Heq. apply Hhead. rewrite <- Heq.
        apply list_elem_of_fmap. by exists c'. }
      split; [|done]. intros Heq. apply Hne. by rewrite Heq. }
    destruct (IH w1) as (w' & Hrun & Hp & Hf & Hc & Hent).
    { intros t f. subst w1.
      rewrite (proj1 (drain_other_fields _ _ _)). apply Hrel. }
    { erewrite list_fmap_ext; [exact Hnd|]. intros i x _. apply Hp1. }
    { rewrite Forall_forall in Hex |- *. intros c' Hin.
      destruct (Hapart c' Hin) as [Hne _]. rewrite Hf1 by done. by apply Hex. }
    exists w'. split; [exact Hrun|]. split_and!.
    + intros g. by rewrite Hp, Hp1.
    + intros g Hg. rewrite Hf.
      * apply Hf1. intros ->. apply (Hg c); [|done]. apply elem_of_cons. by left.
      * intros c' Hin. apply Hg. apply elem_of_cons. by right.
    + intros p Hg. rewrite Hc.
      * apply Hc1. apply Hg. apply elem_of_cons. by left.
      * intros c' Hin. rewrite Hp1. apply Hg. apply elem_of_cons. by right.
    + intros c0 o Hin Ho Hcl. apply elem_of_cons in Hin as [->|Hin].
      * destruct (drain_flushes (file c)
                    (set_trace (trace w ++ [(CClose (file c), None)]) w)
                    o Ho Hcl) as [Hd1 Hd2].
        assert (Hpo : path_of w (file c) = Some (fpath o)).
        { unfold path_of. by rewrite Ho. }
        rewrite Hf, Hc.
        -- split; [exact Hd1|exact Hd2].
        -- intros c' Hin. rewrite Hp1, <- Hpo. by apply Hapart.
        -- intros c' Hin. by apply Hapart.
      * destruct (Hapart c0 Hin) as [Hne Hpne].
        assert (Ho1 : files w1 !! file c0 = Some o) by (by rewrite Hf1).
        destruct (Hent c0 o Hin Ho1 Hcl) as [He1 He2].
        split; [exact He1|]. rewrite He2, Hc1; [done|].
        intros Heq. apply Hpne. unfold path_of at 1. by rewrite Ho.
Qed.

(** After the loop, [shutdown] touches no file. *)
Lemma shutdown_after_loop s w :
  ∃ w1 wf,
    for_each (dict_values (bars_map w))
      (λ ctx, try_pass (file_close (file ctx)))
      (set_stdout (stdout w ++ [nl +:+ "Received signal "
                                +:+ pretty (signum s)
                                +:+ ", shutting down..."]) w) = (Val tt, w1) ∧
    shutdown s w = (Exn (SystemExit 0), wf) ∧
    files wf = files w1 ∧ disk wf = disk w1.
Proof.
  unfold shutdown.
  set (line := nl +:+ "Received signal " +:+ pretty (signum s)
               +:+ ", shutting down...").
  unfold bind at 1. unfold print at 1. unfold modify at 1.
  unfold bind at 1. unfold gets at 1. wsimpl.
  set (w0 := set_stdout (stdout w ++ [line]) w).
  destruct (close_all_spec (dict_values (bars_map w)) w0)
    as (w1 & closes & Hrun & _).
  exists w1. unfold bind at 1. rewrite Hrun.
  unfold bind at 1. unfold gets at 1.
  destruct (ib w1) as [c|] eqn:Hibw.
  - unfold bind at 1. rewrite (try_disconnect_eq w1 c Hibw).
    destruct (fault (env w1) (length (trace w1)) CDisconnect) as [msg|].
    + eexists. split; [reflexivity|]. unfold_m. wsimpl.
      split; [reflexivity|]. by wsimpl.
    + eexists. split; [reflexivity|]. unfold_m. wsimpl.
      split; [reflexivity|]. by wsimpl.
  - eexists. split; [reflexivity|]. unfold_m. wsimpl.
    split; [reflexivity|]. by wsimpl.
Qed.

(** X5: with a mapping as [setup_streaming] builds it and no close raising,
    [shutdown] leaves every file of the mapping that was open closed, with
    an empty buffer, and everything that file object had buffered (the
    header included) is then in the file, after what the file held. *)
Theorem shutdown_flushes_every_file (s : Signal) (w : World) :
  wf_map w → close_reliable w →
  ∀ ctx o, ctx ∈ dict_values (bars_map w) →
    files w !! file ctx = Some o → closed o = false →
    files (shutdown s w).2 !! file ctx =
      Some {| fpath := fpath o; closed := true; buf := [] |} ∧
    file_content (shutdown s w).2 (fpath o) = resource w (file ctx).
Proof.
  intros Hwf Hrel ctx o Hin Ho Hcl.
  destruct (shutdown_after_loop s w) as (w1 & wf & Hrun & Hsh & Hf & Hd).
  rewrite Hsh. cbn [snd].
  set (w0 := set_stdout _ w) in Hrun.
  destruct (close_loop_flushes (dict_values (bars_map w)) w0)
    as (w1' & Hrun' & _ & _ & _ & Hent).
  { exact Hrel. }
  { apply (wf_paths _ Hwf). }
  { pose proof (wf_entries _ Hwf) as Hall.
    rewrite Forall_forall in Hall |- *. intros c Hc.
    destruct (Hall c Hc) as [_ Hp]. unfold path_of in Hp.
    change (files w0) with (files w).
    destruct (files w !! file c); [by eexists|done]. }
  rewrite Hrun in Hrun'. injection Hrun' as <-.
  destruct (Hent ctx o Hin Ho Hcl) as [H1 H2].
  split; [by rewrite Hf|].
  unfold file_content at 1. rewrite Hd. fold (file_content w1 (fpath o)).
  rewrite H2. unfold resource. by rewrite Ho.
Qed.

Lemma shutdown_flushes_every_file_witness :
  wf_map (two_symbols no_fault) ∧ close_reliable (two_symbols no_fault) ∧
  {| symbol := "AAPL"; writer := csv_writer 0; file := 0 |}
    ∈ dict_values (bars_map (two_symbols no_fault)) ∧
  files (two_symbols no_fault) !! 0%nat =
    Some {| fpath := "ibkr_candles/AAPL.csv"; closed := false;
            buf := [header] |} ∧
  file_content (shutdown SIGINT (two_symbols no_fault)).2
    "ibkr_candles/AAPL.csv" = resource (two_symbols no_fault) 0.
Proof.
  assert (Hb : bars_map (two_symbols no_fault) =
    [(1%nat, {| symbol := "AAPL"; writer := csv_writer 0; file := 0 |});
     (3%nat, {| symbol := "MSFT"; writer := csv_writer 2; file := 2 |})]).
  { by vm_compute. }
  assert (Hwf : wf_map (two_symbols no_fault)) by exact (two_symbols_wf _ Hb).
  assert (Hrel : close_reliable (two_symbols no_fault)).
  { intros t f. reflexivity. }
  assert (Hin : {| symbol := "AAPL"; writer := csv_writer 0; file := 0 |}
                  ∈ dict_values (bars_map (two_symbols no_fault))).
  { rewrite Hb. apply elem_of_cons. by left. }
  assert (Ho : files (two_symbols no_fault) !! 0%nat =
    Some {| fpath := "ibkr_candles/AAPL.csv"; closed := false;
            buf := [header] |}) by by vm_compute.
  split; [exact Hwf|]. split; [exact Hrel|]. split; [exact Hin|].
  split; [exact Ho|].
  exact (proj2 (shutdown_flushes_every_file SIGINT (two_symbols no_fault)
                  Hwf Hrel _ _ Hin Ho eq_refl)).
Defined.

Lemma drain_noop f b w :
  (∀ o, files w !! f = Some o → closed o = true) → drain f b w = w.
Proof.
  intros Hc. unfold drain. destruct (files w !! f) as [o|] eqn:Hf; [|done].
  by rewrite (Hc o eq_refl).
Qed.

(** Once no close raises, the loop of [shutdown] leaves every file object
    of the list closed. *)
Lemma close_loop_closes (l : list Ctx) (w : World) :
  close_reliable w →
  ∃ w',
    for_each l (λ ctx, try_pass (file_close (file ctx))) w = (Val tt, w') ∧
    ∀ c o, c ∈ l → files w' !! file c = Some o → closed o = true.
Proof.
  revert w. induction l as [|c l IH]; intros w Hrel.
  - exists w. split; [done|]. intros c o Hin. by apply elem_of_nil in Hin.
  - cbn [for_each]. rewrite bind_eq, try_close_eq, Hrel.
    set (w1 := drain (file c) true _).
    destruct (IH w1) as (w' & Hrun & Hall).
    { intros t f. subst w1.
      rewrite (proj1 (drain_other_fields _ _ _)). apply Hrel. }
    exists w'. split; [exact Hrun|].
    intros c0 o Hin Ho. apply elem_of_cons in Hin as [->|Hin]; [|by eapply Hall].
    destruct (close_all_spec l w1)
      as (w2 & closes & Hrun2 & _ & _ & _ & _ & _ & Hmono & Hnone & _).
    rewrite Hrun in Hrun2. injection Hrun2 as <-.
    destruct (files w1 !! file c) as [o1|] eqn:H1.
    + assert (Hc1 : closed o1 = true) by exact (drain_true_closed _ _ _ H1).
      rewrite (Hmono _ _ H1 Hc1) in Ho. by injection Ho as <-.
    + by rewrite (Hnone _ H1) in Ho.
Qed.

(** On file objects that are all closed already, the loop changes no file. *)
Lemma close_loop_closed (l : list Ctx) (w : World) :
  (∀ c o, c ∈ l → files w !! file c = Some o → closed o = true) →
  ∃ w',
    for_each l (λ ctx, try_pass (file_close (file ctx))) w = (Val tt, w') ∧
    files w' = files w ∧ disk w' = disk w.
Proof.
  revert w. induction l as [|c l IH]; intros w Hall.
  - by exists w.
  - cbn [for_each]. rewrite bind_eq, try_close_eq.
    assert (Hin : c ∈ c :: l) by (apply elem_of_cons; by left).
    assert (Hrest : ∀ c' o, c' ∈ l → files w !! file c' = Some o →
                            closed o = true).
    { intros c' o Hc'. apply Hall. apply elem_of_cons. by right. }
    destruct (fault _ _ _) as [msg|].
    + destruct (IH (set_trace (trace w ++ [(CClose (file c), Some msg)]) w))
        as (w' & Hrun & Hf & Hd); [exact Hrest|].
      exists w'. by split.
    + rewrite drain_noop by (intros o; apply (Hall c o Hin)).
      destruct (IH (set_trace (trace w ++ [(CClose (file c), None)]) w))
        as (w' & Hrun & Hf & Hd); [exact Hrest|].
      exists w'. by split.
Qed.

(** X6: with no close raising, a second [shutdown] (a second signal, or the
    handler of the event loop after a signal) changes no file object and no
    file: everything was closed and written out by the first. *)
Theorem shutdown_again_changes_no_file (s s' : Signal) (w : World) :
  close_reliable w →
  files (shutdown s' (shutdown s w).2).2 = files (shutdown s w).2 ∧
  disk (shutdown s' (shutdown s w).2).2 = disk (shutdown s w).2.
Proof.
  intros Hrel.
  pose proof (shutdown_keeps_bars_map s w) as Hb. unfold same in Hb.
  destruct (shutdown_after_loop s w) as (w1 & wf & Hrun & Hsh & Hf & Hd).
  rewrite Hsh in Hb |- *. cbn [snd] in Hb |- *.
  destruct (close_loop_closes (dict_values (bars_map w))
              (set_stdout (stdout w ++ [nl +:+ "Received signal "
                                        +:+ pretty (signum s)
                                        +:+ ", shutting down..."]) w) Hrel)
    as (w1' & Hrun' & Hall).
  rewrite Hrun in Hrun'. injection Hrun' as <-.
  destruct (shutdown_after_loop s' wf) as (w2 & wf2 & Hrun2 & Hsh2 & Hf2 & Hd2).
  rewrite Hsh2. cbn [snd]. rewrite Hf2, Hd2.
  destruct (close_loop_closed (dict_values (bars_map wf))
              (set_stdout (stdout wf ++ [nl +:+ "Received signal "
                                         +:+ pretty (signum s')
                                         +:+ ", shutting down..."]) wf))
    as (w2' & Hrun2' & Hf2' & Hd2').
  { intros c o Hin. rewrite Hb in Hin. change (files (set_stdout _ wf)) with (files wf).
    rewrite Hf. by apply Hall. }
  rewrite Hrun2 in Hrun2'. injection Hrun2' as <-. by split.
Qed.

Lemma shutdown_again_changes_no_file_witness :
  close_reliable (two_symbols no_fault) ∧
  files (shutdown SIGTERM (shutdown SIGINT (two_symbols no_fault)).2).2 =
    files (shutdown SIGINT (two_symbols no_fault)).2.
Proof.
  assert (Hrel : close_reliable (two_symbols no_fault)).
  { intros t f. reflexivity. }
  split; [exact Hrel|].
  exact (proj1 (shutdown_again_changes_no_file SIGINT SIGTERM
                  (two_symbols no_fault) Hrel)).
Defined.

(** ** The event loop *)

Lemma run_bars pre evs w :
  Forall is_bar pre →
  (run pre w).1 = Val tt ∧ run (pre ++ evs) w = run evs (run pre w).2.
Proof.
  intros Hpre. revert w.
  induction Hpre as [|[bars flag|s|msg|] pre Hbar Hpre IH]; intros w; try done.
  cbn [app run]. rewrite !bind_eq.
  destruct (emit_safe bars flag w) as [[] Hval].
  destruct (emit bars flag w) as [r w1]. cbn [fst] in Hval. subst r.
  apply IH.
Qed.

(** X7: when the event loop dies after any number of bars, what is left of
    the events is never handled, and [main] runs [shutdown] itself: with
    SIGINT as the signal for a keyboard interrupt, and, for any other
    exception, with SIGTERM after printing the error. *)
Theorem run_loop_on_failure (pre rest : list Event) (w : World) :
  Forall is_bar pre →
  let wb := (run pre w).2 in
  (∀ msg,
     run_loop (pre ++ EvException msg :: rest) w =
     shutdown SIGTERM
       (set_stdout (stdout wb ++ ["Unexpected error: " +:+ msg]) wb)) ∧
  run_loop (pre ++ EvKeyboardInterrupt :: rest) w = shutdown SIGINT wb.
Proof.
  intros Hpre wb. split; [intros msg|]; unfold run_loop;
    rewrite (proj2 (run_bars pre _ w Hpre)); fold wb; cbn [run].
  - unfold raise at 1. rewrite bind_eq. unfold print at 1. by unfold modify at 1.
  - by unfold raise at 1.
Qed.

Lemma run_loop_on_failure_witness :
  Forall is_bar [EvBar (delivery 1 [bar_a]) true] ∧
  run_loop ([EvBar (delivery 1 [bar_a]) true]
            ++ EvKeyboardInterrupt :: [EvSignal SIGTERM])
    (two_symbols no_fault) =
  shutdown SIGINT
    (run [EvBar (delivery 1 [bar_a]) true] (two_symbols no_fault)).2.
Proof.
  assert (Hpre : Forall is_bar [EvBar (delivery 1 [bar_a]) true]).
  { constructor; [exact I|constructor]. }
  split; [exact Hpre|].
  exact (proj2 (run_loop_on_failure [EvBar (delivery 1 [bar_a]) true]
                  [EvSignal SIGTERM] (two_symbols no_fault) Hpre)).
Defined.

#[local] Instance nothing_released_preorder : PreOrder nothing_released.
Proof.
  split.
  - by intros w.
  - intros w1 w2 w3 [Hi1 Hc1] [Hi2 Hc2]. split; [congruence|].
    intros g. by rewrite Hc2, Hc1.
Qed.

Lemma emit_releases_nothing bars flag :
  keeps nothing_released (emit bars flag).
Proof.
  unfold emit. apply keeps_bind; [apply _|apply keeps_gets; apply _|].
  intros ls. apply keeps_for_each; [apply _|]. intros _ w.
  destruct (on_bar_frame bars flag w) as (_ & Hib & _ & _ & Hcl & _).
  by split.
Qed.

(** X8: when the event loop returns by itself, after bars only, [main]
    returns without any cleanup: the session is as it was and no file
    object has been closed; [shutdown] is reached through a signal or an
    exception only. *)
Theorem run_loop_returns_without_cleanup (events : list Event) (w : World) :
  Forall is_bar events →
  ∃ w', run_loop events w = (Val tt, w') ∧
        bars_map w' = bars_map w ∧ ib w' = ib w ∧
        ∀ g o, files w !! g = Some o → closed o = false →
               ∃ o', files w' !! g = Some o' ∧ closed o' = false.
Proof.
  intros Hev.
  assert (Hrun : ∀ w, (run events w).1 = Val tt ∧
                      nothing_released w (run events w).2).
  { clear w. induction Hev as [|[bars flag|s|msg|] evs Hbar Hevs IH]; intros w;
      try done.
    cbn [run]. rewrite bind_eq.
    destruct (emit_safe bars flag w) as [[] Hval].
    pose proof (emit_releases_nothing bars flag w) as Hrel.
    destruct (emit bars flag w) as [r w1]. cbn [fst snd] in *. subst r.
    destruct (IH w1) as [Hv Hr]. split; [exact Hv|].
    etrans; [exact Hrel|exact Hr]. }
  destruct (Hrun w) as [Hv [Hib Hcl]].
  pose proof (run_keeps_bars_map events w) as Hb. unfold same in Hb.
  unfold run_loop. destruct (run events w) as [r w']. cbn [fst snd] in *.
  subst r. exists w'. split_and!; try done.
  intros g o Hg Ho. specialize (Hcl g). rewrite Hg in Hcl. cbn in Hcl.
  destruct (files w' !! g) as [o'|]; [|done]. exists o'. split; [done|].
  cbn in Hcl. congruence.
Qed.

Lemma run_loop_returns_without_cleanup_witness :
  Forall is_bar [EvBar (delivery 1 [bar_a]) true] ∧
  ∃ w', run_loop [EvBar (delivery 1 [bar_a]) true] (two_symbols no_fault)
        = (Val tt, w') ∧ ib w' = ib (two_symbols no_fault).
Proof.
  assert (Hpre : Forall is_bar [EvBar (delivery 1 [bar_a]) true]).
  { constructor; [exact I|constructor]. }
  split; [exact Hpre|].
  destruct (run_loop_returns_without_cleanup
              [EvBar (delivery 1 [bar_a]) true] (two_symbols no_fault) Hpre)
    as (w' & Hrun & _ & Hib & _).
  exists w'. split; [exact Hrun|exact Hib].
Defined.

(** ** Setup, call by call *)









(** ** Setup when nothing fails *)

Ltac no_fault Hnf H :=
  exfalso;
  lazymatch type of H with
  | fault _ ?t ?k = Some _ =>
      let Hc := fresh in
      pose proof (eq_trans (eq_sym (Hnf t k)) H) as Hc; discriminate Hc
  end.

(** One round of the loop when nothing raises and there is a session: the
    symbol gets its subscription. *)
Lemma setup_symbol_ok sym w c :
  cooperative w → ib w = Some c →
  ∃ w', setup_symbol sym w = (Val tt, w') ∧ setup_step sym w w' None ∧
        env w' = env w ∧ ib w' = ib w.
Proof.
  intros Hnf Hib. unfold cooperative in Hnf.
  unfold setup_symbol, try_except.
  rewrite bind_eq. unfold Stock at 1. rewrite bind_eq, call_eq.
  fold (stock_call sym).
  destruct (fault (env w) (length (trace w)) (stock_call sym)) as [msg|] eqn:H1;
    [no_fault Hnf H1|].
  unfold ret at 1. cbn beta iota.
  set (w1 := set_trace _ w).
  rewrite bind_eq. unfold gets at 1. cbn beta iota.
  rewrite bind_eq, open_append_eq.
  change (env w1) with (env w).
  set (path := csv_path_of (OUTPUT_DIR (env w)) sym).
  destruct (fault (env w) (length (trace w1)) (COpen path)) as [msg|] eqn:H2;
    [no_fault Hnf H2|].
  cbn beta iota.
  set (w2 := set_trace _ w1).
  rewrite bind_eq.
  change (next_id w1) with (next_id w2). rewrite tell_opened.
  cbn beta iota.
  change (file_content w2 path) with (file_content w path).
  rewrite bind_eq.
  assert (Htr2 : trace w2 = trace w ++ [(stock_call sym, None); (COpen path, None)]).
  { subst w2 w1. wsimpl. by rewrite <- app_assoc. }
  destruct (file_content w path) as [|r0 rows] eqn:Hcont; cbn [length Nat.eqb].
  - unfold writerow at 1. rewrite bind_eq. unfold gets at 1. cbn beta iota.
    cbn [csv_writer fileobj]. rewrite file_pre_opened. rewrite bind_eq, call_eq.
    destruct (fault _ _ (CWriterow _ _)) as [msg|] eqn:H3; [no_fault Hnf H3|].
    unfold modify at 1. cbn beta iota.
    set (w3 := set_files _ _).
    rewrite subscribe_eq.
    change (ib w3) with (ib w).
    assert (Htr3 : trace w3 = trace w ++ [(stock_call sym, None); (COpen path, None);
                                         (CWriterow (next_id w) header, None)]).
    { subst w3. wsimpl. unfold opened. wsimpl. rewrite Htr2.
      by rewrite <- app_assoc. }
    assert (Hf3 : files w3 = <[next_id w := {| fpath := path; closed := false;
                                               buf := [header] |}]> (files w)).
    { subst w3. wsimpl. unfold opened. wsimpl.
      change (next_id w2) with (next_id w). change (files w2) with (files w).
      apply map_eq. intros g. destruct (decide (g = next_id w)) as [->|Hg].
      - by rewrite lookup_alter_eq, !lookup_insert_eq.
      - by rewrite lookup_alter_ne, !lookup_insert_ne. }
    rewrite Hib.
    destruct (fault _ _ (req_call sym)) as [msg|] eqn:H4; [no_fault Hnf H4|].
    eexists. split; [reflexivity|]. split; [|by rewrite <- Hib].
    eapply step_subscribed.
    + wsimpl. rewrite Htr3. unfold header_calls. fold path. rewrite Hcont.
      by rewrite <- app_assoc.
    + wsimpl. rewrite Hf3. unfold header_buf. fold path. by rewrite Hcont.
    + reflexivity.
    + reflexivity.
    + reflexivity.
    + reflexivity.
  - unfold ret at 1. cbn beta iota.
    set (w3 := opened path w2).
    rewrite subscribe_eq.
    change (ib w3) with (ib w).
    assert (Htr3 : trace w3 = trace w ++ [(stock_call sym, None); (COpen path, None)]).
    { subst w3. unfold opened. wsimpl. by rewrite Htr2. }
    assert (Hf3 : files w3 = <[next_id w := {| fpath := path; closed := false;
                                               buf := [] |}]> (files w)).
    { reflexivity. }
    rewrite Hib.
    destruct (fault _ _ (req_call sym)) as [msg|] eqn:H4; [no_fault Hnf H4|].
    eexists. split; [reflexivity|]. split; [|by rewrite <- Hib].
    eapply step_subscribed.
    + wsimpl. rewrite Htr3. unfold header_calls. fold path. rewrite Hcont.
      by rewrite <- app_assoc.
    + wsimpl. rewrite Hf3. unfold header_buf. fold path. by rewrite Hcont.
    + reflexivity.
    + reflexivity.
    + reflexivity.
    + reflexivity.
Qed.

Lemma setup_loop_ok (l : list string) (w : World) c :
  cooperative w → ib w = Some c →
  ∃ w', for_each l setup_symbol w = (Val tt, w') ∧
        setup_steps l w w' (replicate (length l) None) ∧
        stdout w' = stdout w ++ (ok_line <$> l).
Proof.
  revert w. induction l as [|sym l IH]; intros w Hnf Hib.
  - exists w. split_and!; [done|constructor|by rewrite app_nil_r].
  - destruct (setup_symbol_ok sym w c Hnf Hib) as (w1 & Hrun1 & Hstep & He & Hi).
    destruct (IH w1) as (w' & Hrun & Hsteps & Hout).
    { intros t k. rewrite He. apply Hnf. }
    { by rewrite Hi. }
    exists w'. cbn [for_each]. rewrite bind_eq, Hrun1. split_and!.
    + exact Hrun.
    + cbn [length replicate]. by econstructor.
    + rewrite Hout. inversion Hstep as [| | |path Ht Hf Hd Hn Hb Hs].
      rewrite Hs. by rewrite <- app_assoc.
Qed.

Lemma winners_all (l : list string) :
  winners l (replicate (length l) None) = l.
Proof.
  induction l as [|sym l IH]; [done|].
  cbn [length replicate]. by rewrite winners_cons, IH.
Qed.

(** X10: with a session, nothing set up before and nothing raising,
    [setup_streaming] subscribes every ticker of the list, in list order,
    and reports each one as set up. *)
Theorem setup_streaming_subscribes_all (w : World) (c : IBClient) :
  files w = ∅ → bars_map w = [] → ib w = Some c → cooperative w →
  ∃ w',
    setup_streaming w = (Val tt, w') ∧
    subscribed w' = TICKERS ∧
    length (bars_map w') = 92%nat ∧
    stdout w' = stdout w ++ ["Setting up streaming for 92 tickers..."]
                         ++ (ok_line <$> TICKERS).
Proof.
  intros Hf Hb Hib Hnf. unfold setup_streaming, setup_streaming_for.
  rewrite bind_eq. unfold print at 1. unfold modify at 1. cbn beta iota.
  set (w0 := set_stdout _ w).
  destruct (setup_loop_ok TICKERS w0 c Hnf Hib) as (w' & Hrun & Hsteps & Hout).
  exists w'. split; [exact Hrun|].
  pose proof (fresh_setup_inv w0 Hf Hb) as Hinv0.
  pose proof (setup_steps_subscribed _ _ _ _ [] Hsteps Hinv0) as Hsub.
  rewrite winners_all in Hsub.
  assert (Hs : subscribed w' = TICKERS).
  { rewrite Hsub.
    - unfold subscribed. change (bars_map w0) with (bars_map w). by rewrite Hb.
    - constructor.
    - apply TICKERS_plain.
    - apply TICKERS_NoDup.
    - intros s _ Hin. by apply elem_of_nil in Hin. }
  split; [exact Hs|]. split.
  - assert (Hl : length (subscribed w') = length TICKERS) by by rewrite Hs.
    unfold subscribed, dict_values in Hl. rewrite !length_fmap in Hl.
    rewrite Hl. by vm_compute.
  - rewrite Hout. subst w0. wsimpl. rewrite <- app_assoc. do 2 f_equal.
Qed.

Lemma setup_streaming_subscribes_all_witness :
  files (connected_world no_fault) = ∅ ∧
  bars_map (connected_world no_fault) = [] ∧
  ib (connected_world no_fault) = Some {| connected := true |} ∧
  cooperative (connected_world no_fault) ∧
  ∃ w', setup_streaming (connected_world no_fault) = (Val tt, w') ∧
        subscribed w' = TICKERS.
Proof.
  assert (Hf : files (connected_world no_fault) = ∅) by reflexivity.
  assert (Hb : bars_map (connected_world no_fault) = []) by reflexivity.
  assert (Hib : ib (connected_world no_fault) = Some {| connected := true |})
    by reflexivity.
  assert (Hnf : cooperative (connected_world no_fault)).
  { intros t k. reflexivity. }
  split; [exact Hf|]. split; [exact Hb|]. split; [exact Hib|].
  split; [exact Hnf|].
  destruct (setup_streaming_subscribes_all (connected_world no_fault) _
              Hf Hb Hib Hnf) as (w' & Hrun & Hs & _).
  exists w'. split; [exact Hrun|exact Hs].
Defined.

(** ** Output paths *)

(** X11: whatever the output directory, the tickers of the list get
    pairwise different CSV paths, so no two of them share a file.  This
    rests on no ticker starting with the path separator: for a symbol that
    does, [os.path.join] drops the directory. *)
Theorem csv_paths_distinct (dir : string) :
  NoDup (csv_path_of dir <$> TICKERS) ∧
  ∀ sym, ¬ plain sym → csv_path_of dir sym = sym +:+ ".csv".
Proof.
  split.
  - apply NoDup_fmap_2_strong; [|apply TICKERS_NoDup].
    pose proof TICKERS_plain as Hp. rewrite Forall_forall in Hp.
    intros s1 s2 H1 H2. apply csv_path_inj; by apply Hp.
  - intros sym Hsym. unfold plain in Hsym. unfold csv_path_of, path_join.
    destruct sym as [|a sym]; [done|]. cbn [startswith_sep] in Hsym.
    change (String a sym +:+ ".csv") with (String a (sym +:+ ".csv")).
    cbn [startswith_sep]. by destruct (Ascii.eqb a sep).
Qed.

(** ** The order of the calls in one round of setup *)


(** ** The output directory *)

(** X13: [setup_output_directory] never raises and returns [True] exactly
    when [os.makedirs] does not raise.  It makes that one call, adds the
    directory when the call succeeds, and touches no file, no session and
    no subscription; a directory that is there already is no error and
    leaves the set of directories as it was. *)
Theorem setup_output_directory_outcome (w : World) :
  ∃ b w',
    setup_output_directory w = (Val b, w') ∧
    (b = true ↔
     fault (env w) (length (trace w)) (CMakedirs (OUTPUT_DIR (env w))) = None) ∧
    trace w' = trace w ++
               [(CMakedirs (OUTPUT_DIR (env w)),
                 fault (env w) (length (trace w))
                   (CMakedirs (OUTPUT_DIR (env w))))] ∧
    dirs w' = (if b then {[ OUTPUT_DIR (env w) ]} ∪ dirs w else dirs w) ∧
    (OUTPUT_DIR (env w) ∈ dirs w → dirs w' = dirs w) ∧
    files w' = files w ∧ disk w' = disk w ∧ ib w' = ib w ∧
    bars_map w' = bars_map w.
Proof.
  rewrite setup_output_directory_eq.
  destruct (fault (env w) (length (trace w)) (CMakedirs (OUTPUT_DIR (env w))))
    as [msg|] eqn:Hf.
  - exists false, (makedirs_failed msg w). split_and!; done.
  - exists true, (makedirs_done w). split_and!; [done|by split|done|done| |done..].
    intros Hin. unfold makedirs_done. wsimpl.
    apply subseteq_union_1_L. by apply singleton_subseteq_l.
Qed.
